(** * Verification of the image scanner (pkg/scanner/scanner.go)

    A shallow embedding of the scanner package: the image grouper
    [groupContainersByImageName], the image name resolver
    [stringReplacement], the vulnerability summarizer
    [buildVulnerabilitySummary] / [NewScannedImage], the pooled scan
    orchestration [scanImages] with its entry point [ScanImages], and the
    compliance entry point [CisScan].

    Conventions.
    - A Go [string] is a sequence of bytes: Rocq's [string].
    - A Go [int] is taken to be 64 bits wide (amd64, arm64); arithmetic on it
      wraps around, see [wrap].
    - A Go [error] is represented by its message; a nil-able error is an
      [option error].
    - A Go [map[string]T] is a [gmap string T]; the iteration order of a Go
      map is unspecified, so every loop over a map is modelled over an
      arbitrary permutation of its entries or shown not to depend on it.
    - Calls of the logger (logr) do not influence control flow or results and
      are left out. *)

From Stdlib Require Import ZArith Ascii String.
From stdpp Require Import gmap strings list fin_maps.

Local Open Scope string_scope.
Local Open Scope list_scope.

(** ** Go's [strings] package, as far as the scanner uses it *)

Module strings.

(** Width, in bytes, of the UTF-8 sequence at the start of a string
    ([utf8.DecodeRuneInString]): the lead byte gives the expected length and
    the range accepted for the second byte; a byte that does not start a
    valid sequence counts as a sequence of width one. *)
Definition leadByte (b : N) : option (nat * N * N) :=
  if (b <? 0xC2)%N then None
  else if (b <? 0xE0)%N then Some (2, 0x80%N, 0xBF%N)
  else if (b =? 0xE0)%N then Some (3, 0xA0%N, 0xBF%N)
  else if (b <? 0xED)%N then Some (3, 0x80%N, 0xBF%N)
  else if (b =? 0xED)%N then Some (3, 0x80%N, 0x9F%N)
  else if (b <? 0xF0)%N then Some (3, 0x80%N, 0xBF%N)
  else if (b =? 0xF0)%N then Some (4, 0x90%N, 0xBF%N)
  else if (b <? 0xF4)%N then Some (4, 0x80%N, 0xBF%N)
  else if (b =? 0xF4)%N then Some (4, 0x80%N, 0x8F%N)
  else None.

Definition inRange (lo hi : N) (c : ascii) : bool :=
  ((lo <=? N_of_ascii c) && (N_of_ascii c <=? hi))%N.

Definition runeWidth (s : string) : nat :=
  match s with
  | EmptyString => 0
  | String c0 rest =>
      match leadByte (N_of_ascii c0) with
      | None => 1
      | Some (sz, lo, hi) =>
          if (String.length s <? sz)%nat then 1
          else match rest with
               | String c1 rest1 =>
                   if negb (inRange lo hi c1) then 1
                   else if (sz <=? 2)%nat then 2
                   else match rest1 with
                        | String c2 rest2 =>
                            if negb (inRange 0x80 0xBF c2) then 1
                            else if (sz <=? 3)%nat then 3
                            else match rest2 with
                                 | String c3 _ =>
                                     if negb (inRange 0x80 0xBF c3) then 1
                                     else 4
                                 | EmptyString => 1
                                 end
                        | EmptyString => 1
                        end
               | EmptyString => 1
               end
      end
  end.

(** [strings.Split(s, sep)] for a separator of one byte, the only kind the
    scanner passes ("," and "|"): the substrings between the separators;
    a string without separator, the empty one included, gives one piece. *)
Fixpoint Split (s : string) (sep : ascii) : list string :=
  match s with
  | EmptyString => [EmptyString]
  | String c s' =>
      if Ascii.eqb c sep then EmptyString :: Split s' sep
      else match Split s' sep with
           | p :: ps => String c p :: ps
           | [] => [String c EmptyString]
           end
  end.

(** Replacement of every non-overlapping occurrence of a non-empty [old],
    leftmost first. [skip] counts the bytes of the occurrence found last
    that are still to be dropped. *)
Fixpoint replaceFrom (old new : string) (skip : nat) (s : string) : string :=
  match s with
  | EmptyString => EmptyString
  | String c s' =>
      match skip with
      | S k => replaceFrom old new k s'
      | O =>
          if String.prefix old s
          then new +:+ replaceFrom old new (pred (String.length old)) s'
          else String c (replaceFrom old new 0 s')
      end
  end.

(** The empty [old] matches at the start of the string and after each
    UTF-8 sequence. [k] counts the bytes left in the current sequence. *)
Fixpoint insertAfterRunes (new : string) (k : nat) (s : string) : string :=
  match s with
  | EmptyString => EmptyString
  | String c s' =>
      let k' := match k with O => pred (runeWidth s) | S j => j end in
      String c (match k' with
                | O => new +:+ insertAfterRunes new 0 s'
                | S _ => insertAfterRunes new k' s'
                end)
  end.

(** [strings.Replace(s, old, new, -1)]. *)
Definition Replace (s old new : string) : string :=
  if String.eqb old new then s
  else match old with
       | EmptyString => new +:+ insertAfterRunes new 0 s
       | String _ _ => replaceFrom old new 0 s
       end.

(** [strings.Contains(s, substr)]; used to read error messages. *)
Fixpoint Contains (s substr : string) : bool :=
  String.prefix substr s ||
  match s with
  | EmptyString => false
  | String _ s' => Contains s' substr
  end.

End strings.

(** ** Errors *)

Definition error : Type := string.

(** ** Image name resolver *)

Definition formatError : error :=
  "string Replacement pattern is not in the right format '$matchingString|$replacementString,$matchingString|$replacementString'".

(** The loop of [stringReplacement] over [replacementArr]; [imageName] is the
    function's parameter, reassigned by every rule that has two parts. *)
Fixpoint replaceEach (imageName : string) (replacementArr : list string)
  : string * option error :=
  match replacementArr with
  | [] => (imageName, None)
  | pattern :: rest =>
      match strings.Split pattern "|" with
      | [match_; replace] =>
          replaceEach (strings.Replace imageName match_ replace) rest
      | _ => (imageName, Some formatError)
      end
  end.

Definition stringReplacement (imageName stringReplacement : string)
  : string * option error :=
  if String.eqb stringReplacement "" then (imageName, None)
  else replaceEach imageName (strings.Split stringReplacement ",").


(** ** Go's [int] *)

(** Two's complement wrap-around of a 64-bit [int]. *)
Definition wrap (z : Z) : Z := ((z + 2 ^ 63) mod 2 ^ 64 - 2 ^ 63)%Z.

Definition int_add (a b : Z) : Z := wrap (a + b).
Definition int_mul (a b : Z) : Z := wrap (a * b).

(** ** Data model *)

(** Go keeps field names apart from type names; where a field is named like
    a type ([Layer], [Vulnerabilities], [TrivyOutputResults],
    [VulnerabilitySummary]) or like a field of another struct ([Severity] of
    [Config]) the field carries a trailing underscore here. *)

Record Layer := {
  DiffID : string;
  Digest : string
}.

Record Vulnerabilities := {
  Description : string;
  Severity : string;
  SeveritySource : string;
  FixedVersion : string;
  InstalledVersion : string;
  VulnerabilityID : string;
  PkgName : string;
  Title : string;
  References : list string;
  Layer_ : option Layer
}.

Record TrivyOutputResults := {
  Vulnerabilities_ : list Vulnerabilities;
  Type_ : string;
  Target : string
}.

Record VulnerabilitySummary := {
  ContainerCount : Z;
  SeverityScore : Z;
  TotalVulnerabilityBySeverity : gmap string Z
}.

Record Config := {
  LogLevel : string;
  Workers : Z;
  ImageNameReplacement : string;
  AreaLabels : string;
  TeamsLabels : string;
  FilterLabels : string;
  Severity_ : string;
  ScanImageTimeout : Z
}.

Record AreaReport := {
  AreaLabelName : string;
  TeamLabelName : string
}.

(** ** Severity weights *)

Definition critical : Z := 100000000.
Definition high : Z := 1000000.
Definition medium : Z := 10000.
Definition low : Z := 100.
Definition unknown : Z := 1.

Definition severityScores : gmap string Z :=
  list_to_map [("CRITICAL", critical); ("HIGH", high); ("MEDIUM", medium);
               ("LOW", low); ("UNKNOWN", unknown)].

(** [m[k]] on a Go map: the zero value when the key is absent. *)
Definition at_ (m : gmap string Z) (k : string) : Z := default 0%Z (m !! k).

Section Scanner.

(** [k8s.ContainerSummary] is declared in package k8s; the scanner reads
    its [Image] field and nothing else. *)
Context {ContainerSummary : Type} (Image : ContainerSummary → string).

Record ScannedImage := {
  TrivyOutputResults_ : list TrivyOutputResults;
  Containers : list ContainerSummary;
  ImageName : string;
  ScanError : option error;
  VulnerabilitySummary_ : VulnerabilitySummary
}.

(** *** Image grouper *)

Definition groupContainersByImageName (containers : list ContainerSummary)
  : gmap string (list ContainerSummary) :=
  foldl (λ images container,
           let images :=
             match images !! Image container with
             | Some _ => images
             | None => <[Image container := []]> images
             end in
           <[Image container :=
               default [] (images !! Image container) ++ [container]]> images)
        ∅ containers.

(** *** Vulnerability summarizer *)

(** First loop of [buildVulnerabilitySummary]: every key of
    [severityScores], visited in the order [keys], is set to zero. *)
Definition zeroCounts (keys : list (string * Z)) : gmap string Z :=
  foldl (λ severityMap entry, <[entry.1 := 0%Z]> severityMap) ∅ keys.

(** Second loop: one increment per vulnerability of every target. *)
Definition countVulnerability (severityMap : gmap string Z)
    (vulnerability : Vulnerabilities) : gmap string Z :=
  <[Severity vulnerability :=
      int_add (at_ severityMap (Severity vulnerability)) 1]> severityMap.

Definition countTarget (severityMap : gmap string Z)
    (target : TrivyOutputResults) : gmap string Z :=
  foldl countVulnerability severityMap (Vulnerabilities_ target).

(** Third loop: the weighted sum over the entries of [severityMap], visited
    in the order [entries]. *)
Definition addScore (severityScore : Z) (entry : string * Z) : Z :=
  let score := at_ severityScores entry.1 in
  int_add severityScore (int_mul entry.2 score).

Definition sumScores (entries : list (string * Z)) : Z :=
  foldl addScore 0%Z entries.

Definition severityMapOf (trivyOutput : list TrivyOutputResults)
  : gmap string Z :=
  foldl countTarget (zeroCounts (map_to_list severityScores)) trivyOutput.

Definition buildVulnerabilitySummary (i : ScannedImage)
  : VulnerabilitySummary :=
  let severityMap := severityMapOf (TrivyOutputResults_ i) in
  {| ContainerCount := Z.of_nat (length (Containers i));
     SeverityScore := sumScores (map_to_list severityMap);
     TotalVulnerabilityBySeverity := severityMap |}.

Definition NewScannedImage (imageName : string)
    (containers : list ContainerSummary)
    (trivyOutput : list TrivyOutputResults) (scanError : option error)
  : ScannedImage :=
  let i := {| ImageName := imageName;
              Containers := containers;
              TrivyOutputResults_ := trivyOutput;
              ScanError := scanError;
              VulnerabilitySummary_ :=
                {| ContainerCount := 0; SeverityScore := 0;
                   TotalVulnerabilityBySeverity := ∅ |} |} in
  {| ImageName := ImageName i;
     Containers := Containers i;
     TrivyOutputResults_ := TrivyOutputResults_ i;
     ScanError := ScanError i;
     VulnerabilitySummary_ := buildVulnerabilitySummary i |}.

(** *** External collaborators

    The clients are Go interfaces implemented outside this file; a call
    takes the state of the outside world and returns its answer with the
    new state. The answer of a client is a Go pair: value and error. *)

Context {World CisScanOutput VulnerabilityReport : Type}.

Record KubernetesClient := {
  GetContainersInNamespaces :
    string → World → (list ContainerSummary * option error) * World
}.

Record DockerClient := {
  PullImage : string → World → option error * World;
  RmiImage : string → World → option error * World
}.

(** The method [CisScan] of the client is [CisScan_] here, [CisScan] being
    the scanner's own entry point. *)
Record TrivyClient := {
  DownloadDatabase : string → World → option error * World;
  ScanImage :
    string → World → (list TrivyOutputResults * option error) * World;
  CisScan_ : string → World → (CisScanOutput * option error) * World
}.

(** The method [GenerateVulnerabilityReport] of [AreaReport], the report
    aggregator; it is implemented outside this file. *)
Variable GenerateVulnerabilityReport :
  AreaReport → list ScannedImage →
  World → (option VulnerabilityReport * option error) * World.

(** The order in which a [range] loop visits the image map. *)
Variable range :
  gmap string (list ContainerSummary) →
  list (string * list ContainerSummary).

Record Scanner := {
  config : Config;
  kubernetesClient : KubernetesClient;
  dockerClient : DockerClient;
  trivyClient : TrivyClient
}.

(** Every call of a collaborator is recorded, in order. *)
Inductive Call :=
| GetContainersInNamespacesCall (labelSelector : string)
| DownloadDatabaseCall (kind : string)
| PullImageCall (image : string)
| ScanImageCall (image : string)
| RmiImageCall (image : string)
| CisScanCall (benchmark : string)
| GenerateVulnerabilityReportCall
    (generator : AreaReport) (images : list ScannedImage).

Record Env := {
  world : World;
  calls : list Call
}.

Definition M (A : Type) : Type := Env → A * Env.

#[local] Instance M_ret : MRet M := λ A a e, (a, e).
#[local] Instance M_bind : MBind M :=
  λ A B k m e, let '(a, e') := m e in k a e'.

Definition external {A : Type} (c : Call) (f : World → A * World) : M A :=
  λ e, let '(a, w) := f (world e) in
       (a, {| world := w; calls := calls e ++ [c] |}).

(** *** Scan worker pool

    [workerpool.New(n)] (github.com/gammazero/workerpool) raises an [n]
    below one to one, runs at most that many submitted functions at a time
    and starts them in the order of submission. A submitted function
    is the closure of [scanImages]; it advances in five steps, one per
    access to the outside world or to the shared variable [scannedImages]:
    pull, scan (and construction of the ScannedImage), evaluation of
    [append(scannedImages, ...)], assignment to [scannedImages], removal. *)

Inductive Stage :=
| Queued
| Pulled
| Scanned (image : ScannedImage)
| Loaded (appended : list ScannedImage)
| Stored
| Finished.

Record Task := {
  resolvedImageName : string;
  resolvedContainers : list ContainerSummary;
  stage : Stage
}.

Record Pool := {
  env : Env;
  scannedImages : list ScannedImage;
  tasks : list Task
}.

Definition withStage (t : Task) (st : Stage) : Task :=
  {| resolvedImageName := resolvedImageName t;
     resolvedContainers := resolvedContainers t;
     stage := st |}.

Definition isQueued (t : Task) : bool :=
  match stage t with Queued => true | _ => false end.

Definition isFinished (t : Task) : bool :=
  match stage t with Finished => true | _ => false end.

Definition isRunning (t : Task) : bool :=
  negb (isQueued t) && negb (isFinished t).

Definition maxWorkers (s : Scanner) : Z := Z.max 1 (Workers (config s)).

(** A worker is free and every function submitted earlier was started. *)
Definition canStart (s : Scanner) (i : nat) (p : Pool) : bool :=
  (Z.of_nat (length (filter (λ t, isRunning t = true) (tasks p)))
     <? maxWorkers s)%Z
  && forallb (λ t, negb (isQueued t)) (take i (tasks p)).

Definition scanErrorOf (resolvedImageName : string) (err : option error)
  : option error :=
  (λ err, "error executing trivy for image " +:+ resolvedImageName
            +:+ ": " +:+ err) <$> err.

(** One step of the [i]-th submitted function. *)
Definition stepTask (s : Scanner) (i : nat) (p : Pool) : option Pool :=
  t ← tasks p !! i;
  let update e images st :=
    {| env := e; scannedImages := images;
       tasks := <[i := withStage t st]> (tasks p) |} in
  match stage t with
  | Queued =>
      if canStart s i p then
        let '(_, e) :=
          external (PullImageCall (resolvedImageName t))
                   (PullImage (dockerClient s) (resolvedImageName t)) (env p) in
        Some (update e (scannedImages p) Pulled)
      else None
  | Pulled =>
      let '((trivyOutput, err), e) :=
        external (ScanImageCall (resolvedImageName t))
                 (ScanImage (trivyClient s) (resolvedImageName t)) (env p) in
      let scanError := scanErrorOf (resolvedImageName t) err in
      Some (update e (scannedImages p)
              (Scanned (NewScannedImage (resolvedImageName t)
                          (resolvedContainers t) trivyOutput scanError)))
  | Scanned image =>
      Some (update (env p) (scannedImages p)
              (Loaded (scannedImages p ++ [image])))
  | Loaded appended =>
      Some (update (env p) appended Stored)
  | Stored =>
      let '(_, e) :=
        external (RmiImageCall (resolvedImageName t))
                 (RmiImage (dockerClient s) (resolvedImageName t)) (env p) in
      Some (update e (scannedImages p) Finished)
  | Finished => None
  end.

(** The pool under a schedule: the list of the functions that take the
    successive steps. *)
Fixpoint run (s : Scanner) (schedule : list nat) (p : Pool) : option Pool :=
  match schedule with
  | [] => Some p
  | i :: rest => p' ← stepTask s i p; run s rest p'
  end.

(** The body of the loop of [scanImages] up to [wp.Submit]. *)
Definition submit (s : Scanner) (entry : string * list ContainerSummary)
  : Task :=
  let '(imageName, containers) := entry in
  let resolvedContainers := containers in
  let '(resolvedImageName, _) :=
    stringReplacement imageName (ImageNameReplacement (config s)) in
  {| resolvedImageName := resolvedImageName;
     resolvedContainers := resolvedContainers;
     stage := Queued |}.

(** The pool when the loop of [scanImages] has submitted one function per
    entry of the map. *)
Definition submitted (s : Scanner)
    (imageList : gmap string (list ContainerSummary)) (e : Env) : Pool :=
  {| env := e; scannedImages := []; tasks := submit s <$> range imageList |}.

(** [scanImages] returns when [wp.StopWait] does: when every submitted
    function has finished. [None]: the schedule does not lead there. *)
Definition scanImages (s : Scanner)
    (imageList : gmap string (list ContainerSummary))
    (schedule : list nat) (e : Env)
  : option ((list ScannedImage * option error) * Env) :=
  let '(err, e) :=
    external (DownloadDatabaseCall "image")
             (DownloadDatabase (trivyClient s) "image") e in
  match err with
  | Some err => Some (([], Some ("failed to download trivy db: " +:+ err)), e)
  | None =>
      p ← run s schedule (submitted s imageList e);
      if forallb isFinished (tasks p)
      then Some ((scannedImages p, None), env p)
      else None
  end.

Definition reportGeneratorOf (s : Scanner) : AreaReport :=
  {| AreaLabelName := AreaLabels (config s);
     TeamLabelName := TeamsLabels (config s) |}.

Definition ScanImages (s : Scanner) (schedule : list nat) (e : Env)
  : option ((option VulnerabilityReport * option error) * Env) :=
  let '((containers, err), e) :=
    external (GetContainersInNamespacesCall (FilterLabels (config s)))
             (GetContainersInNamespaces (kubernetesClient s)
                (FilterLabels (config s))) e in
  match err with
  | Some err => Some ((None, Some err), e)
  | None =>
      let containersByImageName := groupContainersByImageName containers in
      '((scannedImages, err), e) ←
        scanImages s containersByImageName schedule e;
      match err with
      | Some err => Some ((None, Some err), e)
      | None =>
          let reportGenerator := reportGeneratorOf s in
          Some (external
                  (GenerateVulnerabilityReportCall reportGenerator
                     scannedImages)
                  (GenerateVulnerabilityReport reportGenerator scannedImages)
                  e)
      end
  end.

(** *** Compliance scan *)

Definition CisScan (s : Scanner) (benchmark : string)
  : M (option VulnerabilityReport * option error) :=
  '(trivyOutput, err) ←
    external (CisScanCall benchmark) (CisScan_ (trivyClient s) benchmark);
  match err with
  | Some err =>
      mret (None, Some ("error executing trivy cluster scan: " +:+ err))
  | None =>
      let reportGenerator := reportGeneratorOf s in
      external (GenerateVulnerabilityReportCall reportGenerator [])
               (GenerateVulnerabilityReport reportGenerator [])
  end.

End Scanner.

(** ** Vocabulary of the properties *)

Definition knownSeverities : list string :=
  ["CRITICAL"; "HIGH"; "MEDIUM"; "LOW"; "UNKNOWN"].

(** The severities of all findings of a scan, in scan order. *)
Definition severitiesOf (trivyOutput : list TrivyOutputResults) : list string :=
  Severity <$> concat (Vulnerabilities_ <$> trivyOutput).

Definition occurrences (severity : string) (l : list string) : nat :=
  length (filter (λ x, x = severity) l).

Definition sumZ (l : list Z) : Z := foldr Z.add 0%Z l.

(** The sum of the weights of all findings, without wrap-around. *)
Definition weightOf (trivyOutput : list TrivyOutputResults) : Z :=
  sumZ (at_ severityScores <$> severitiesOf trivyOutput).

(** The weighted sum over the entries of a histogram, without wrap-around. *)
Definition total (entries : list (string * Z)) : Z :=
  sumZ ((λ entry, entry.2 * at_ severityScores entry.1)%Z <$> entries).

(** The entries of a rule string, as [stringReplacement] visits them. *)
Definition entriesOf (rules : string) : list string :=
  if String.eqb rules "" then [] else strings.Split rules ",".

(** An entry that splits into exactly two parts on "|" is a rule. *)
Definition twoParts (entry : string) : option (string * string) :=
  match strings.Split entry "|" with
  | [match_; replace] => Some (match_, replace)
  | _ => None
  end.

Definition applyRule (imageName : string) (rule : string * string) : string :=
  strings.Replace imageName rule.1 rule.2.

(** A scan without the findings of one severity. *)
Definition dropSeverity (severity : string)
    (trivyOutput : list TrivyOutputResults) : list TrivyOutputResults :=
  (λ t, {| Vulnerabilities_ :=
             filter (λ v, Severity v ≠ severity) (Vulnerabilities_ t);
           Type_ := Type_ t;
           Target := Target t |}) <$> trivyOutput.

(** *** Schedules *)

Section Schedules.

Context {ContainerSummary World CisScanOutput : Type}.
Implicit Types (s : @Scanner ContainerSummary World CisScanOutput)
               (t : @Task ContainerSummary)
               (p : @Pool ContainerSummary World).

(** The steps a submitted function still has to take. *)
Definition remaining t : nat :=
  match stage t with
  | Queued => 5
  | Pulled => 4
  | Scanned _ => 3
  | Loaded _ => 2
  | Stored => 1
  | Finished => 0
  end.

Definition stepsLeft p : nat := sum_list (remaining <$> tasks p).

(** The number of functions the workers are executing. *)
Definition runningCount p : nat :=
  length (filter (λ t, isRunning t = true) (tasks p)).

Definition isLoaded t : bool :=
  match stage t with Loaded _ => true | _ => false end.

(** A schedule that interrupts no append: the function that has evaluated
    [append(scannedImages, ...)] takes the next step, the assignment to
    [scannedImages], before any other function moves. The complete runs of
    a pool of one worker are all of this kind. *)
Fixpoint uninterrupted s (schedule : list nat) p : bool :=
  match schedule with
  | [] => true
  | i :: rest =>
      match stepTask s i p with
      | None => true
      | Some p' =>
          match isLoaded <$> tasks p' !! i with
          | Some true =>
              match rest with
              | j :: _ => Nat.eqb i j && uninterrupted s rest p'
              | [] => false
              end
          | _ => uninterrupted s rest p'
          end
      end
  end.

(** The ScannedImage the scan step of a function constructs when the outside
    world is in state [w]. *)
Definition scanResult s (resolvedImageName : string)
    (resolvedContainers : list ContainerSummary) (w : World)
  : @ScannedImage ContainerSummary :=
  let '((trivyOutput, err), _) :=
    ScanImage (trivyClient s) resolvedImageName w in
  NewScannedImage resolvedImageName resolvedContainers trivyOutput
    (scanErrorOf resolvedImageName err).

(** What one step of a submitted function does to its stage and to the
    shared variable [scannedImages]. *)
Inductive advances s p t
  : @Stage ContainerSummary → list (@ScannedImage ContainerSummary) → Prop :=
| advances_pull :
    stage t = Queued →
    advances s p t Pulled (scannedImages p)
| advances_scan :
    stage t = Pulled →
    advances s p t
      (Scanned (scanResult s (resolvedImageName t) (resolvedContainers t)
                  (world (env p))))
      (scannedImages p)
| advances_load image :
    stage t = Scanned image →
    advances s p t (Loaded (scannedImages p ++ [image])) (scannedImages p)
| advances_store appended :
    stage t = Loaded appended →
    advances s p t Stored appended
| advances_remove :
    stage t = Stored →
    advances s p t Finished (scannedImages p).

(** The bookkeeping of a run: for every submitted function, whether its
    ScannedImage has been stored in [scannedImages] ([Some]) or not yet. *)
Definition accounted s (shared : list (@ScannedImage ContainerSummary)) t
    (r : option (@ScannedImage ContainerSummary)) : Prop :=
  match stage t, r with
  | Queued, None | Pulled, None => True
  | Scanned image, None =>
      ∃ w, image
           = scanResult s (resolvedImageName t) (resolvedContainers t) w
  | Loaded appended, None =>
      ∃ w, appended
           = shared
             ++ [scanResult s (resolvedImageName t) (resolvedContainers t) w]
  | Stored, Some image | Finished, Some image =>
      ∃ w, image
           = scanResult s (resolvedImageName t) (resolvedContainers t) w
  | _, _ => False
  end.

Record consistent s p (next : option nat)
    (res : list (option (@ScannedImage ContainerSummary))) : Prop := {
  consistent_tasks : Forall2 (accounted s (scannedImages p)) (tasks p) res;
  consistent_images : scannedImages p ≡ₚ omap id res;
  consistent_next :
    ∀ j t, tasks p !! j = Some t → isLoaded t = true → next = Some j
}.

(** A submitted function keeps the image name and the containers it was
    submitted with. *)
Definition identity t : string * list ContainerSummary :=
  (resolvedImageName t, resolvedContainers t).

(** The outside world after the download of the vulnerability database. *)
Definition downloaded (e : @Env ContainerSummary World) (w : World)
  : @Env ContainerSummary World :=
  {| world := w; calls := calls e ++ [DownloadDatabaseCall "image"] |}.

End Schedules.

(** The name under which the image is scanned. *)
Definition resolvedName (rules imageName : string) : string :=
  (stringReplacement imageName rules).1.

(** *** Calls and results of a run *)

Section Traces.

Context {ContainerSummary World CisScanOutput : Type}.
Implicit Types (s : @Scanner ContainerSummary World CisScanOutput)
               (t : @Task ContainerSummary)
               (p : @Pool ContainerSummary World)
               (c : @Call ContainerSummary).








(** The ScannedImage was constructed by the scan step of the function. *)
Definition produced s t (image : @ScannedImage ContainerSummary) : Prop :=
  ∃ w, image = scanResult s (resolvedImageName t) (resolvedContainers t) w.

(** The bookkeeping of a run whose appends may be interrupted: as
    [accounted], but what a function has read of [scannedImages] before
    its assignment is only known to hold ScannedImages that were assigned
    at some time, each at most once. *)
Definition kept s (res : list (option (@ScannedImage ContainerSummary))) t
    (r : option (@ScannedImage ContainerSummary)) : Prop :=
  match stage t, r with
  | Queued, None | Pulled, None => True
  | Scanned image, None => produced s t image
  | Loaded appended, None =>
      ∃ before image,
        appended = before ++ [image]
        ∧ produced s t image
        ∧ before ⊆+ omap id res
  | Stored, Some image | Finished, Some image => produced s t image
  | _, _ => False
  end.

Record lossy s p (res : list (option (@ScannedImage ContainerSummary)))
  : Prop := {
  lossy_tasks : Forall2 (kept s res) (tasks p) res;
  lossy_images : scannedImages p ⊆+ omap id res;
  lossy_assigned : omap id res ≠ [] → scannedImages p ≠ []
}.

(** The bookkeeping of a run of one worker: the submitted functions run
    one after the other, in the order of submission, and [scannedImages]
    holds what they have assigned, in that order. *)
Record sequential s p (res : list (option (@ScannedImage ContainerSummary)))
  : Prop := {
  sequential_tasks : Forall2 (accounted s (scannedImages p)) (tasks p) res;
  sequential_images : scannedImages p = omap id res;
  sequential_order :
    ∀ j k t t',
      (j < k)%nat → tasks p !! j = Some t → tasks p !! k = Some t' →
      isQueued t' = false → isFinished t = true;
  sequential_workers : (runningCount p ≤ 1)%nat
}.

(** The scanner with its configuration changed to one worker. *)
Definition singleWorker s : @Scanner ContainerSummary World CisScanOutput :=
  {| config :=
       {| LogLevel := LogLevel (config s);
          Workers := 1;
          ImageNameReplacement := ImageNameReplacement (config s);
          AreaLabels := AreaLabels (config s);
          TeamsLabels := TeamsLabels (config s);
          FilterLabels := FilterLabels (config s);
          Severity_ := Severity_ (config s);
          ScanImageTimeout := ScanImageTimeout (config s) |};
     kubernetesClient := kubernetesClient s;
     dockerClient := dockerClient s;
     trivyClient := trivyClient s |}.

(** The outside world after the list of the containers was fetched. *)
Definition listed (filterLabels : string) (e : @Env ContainerSummary World)
    (w : World) : @Env ContainerSummary World :=
  {| world := w;
     calls := calls e ++ [GetContainersInNamespacesCall filterLabels] |}.

End Traces.

(** The sum of the counts of a histogram, without wrap-around. *)
Definition countSum (severityMap : gmap string Z) : Z :=
  sumZ (map_to_list severityMap).*2.

(** *** Rule strings *)

(** The number of bytes [sep] in a string. *)
Fixpoint countByte (sep : ascii) (s : string) : nat :=
  match s with
  | EmptyString => 0
  | String c s' => (if Ascii.eqb c sep then 1 else 0) + countByte sep s'
  end.

(** A part of a rule that can be written into a rule string as it is: it
    holds neither of the two separators. *)
Definition plainPart (part : string) : Prop :=
  countByte "," part = 0 ∧ countByte "|" part = 0.

(** The format the error message of the resolver describes:
    [$matchingString|$replacementString], the rules separated by commas. *)
Definition encodeRule (rule : string * string) : string :=
  rule.1 +:+ "|" +:+ rule.2.

Fixpoint joinWith (sep : string) (pieces : list string) : string :=
  match pieces with
  | [] => ""
  | [piece] => piece
  | piece :: rest => piece +:+ sep +:+ joinWith sep rest
  end.

Definition encodeRules (rules : list (string * string)) : string :=
  joinWith "," (encodeRule <$> rules).

(** [new] written behind every byte of a string. *)
Fixpoint interleave (new s : string) : string :=
  match s with
  | EmptyString => EmptyString
  | String c s' => String c (new +:+ interleave new s')
  end.

Fixpoint isASCII (s : string) : bool :=
  match s with
  | EmptyString => true
  | String c s' => (N_of_ascii c <? 0x80)%N && isASCII s'
  end.

(** ** A small cluster, for the examples *)

Module Example.

Record Container := {
  ContainerName : string;
  ContainerImage : string
}.

Definition vulnerability (severity : string) : Vulnerabilities :=
  {| Description := ""; Severity := severity; SeveritySource := "nvd";
     FixedVersion := ""; InstalledVersion := "1.0"; VulnerabilityID := "CVE";
     PkgName := "pkg"; Title := ""; References := []; Layer_ := None |}.

Definition findings (severities : list string) : list TrivyOutputResults :=
  [{| Vulnerabilities_ := vulnerability <$> severities;
      Type_ := "debian"; Target := "os" |}].

Definition scanned (severities : list string) : @ScannedImage Container :=
  NewScannedImage "image" [] (findings severities) None.

(** The outside world is the local image cache. *)
Definition docker : @DockerClient (list string) :=
  {| PullImage image cache :=
       if String.eqb image "private"
       then (Some "pull access denied", cache)
       else (None, image :: cache);
     RmiImage image cache :=
       if bool_decide (image ∈ cache)
       then (None, filter (λ x, x ≠ image) cache)
       else (Some "no such image", cache) |}.

Definition trivy (database : option error)
  : @TrivyClient (list string) string :=
  {| DownloadDatabase kind cache := (database, cache);
     ScanImage image cache :=
       if String.eqb image "a" then ((findings ["CRITICAL"], None), cache)
       else if String.eqb image "broken" then (([], Some "timeout"), cache)
       else (([], None), cache);
     CisScan_ benchmark cache :=
       if String.eqb benchmark "k8s-cis" then (("", Some "boom"), cache)
       else (("12 checks passed", None), cache) |}.

Definition kubernetes (containers : list Container)
  : @KubernetesClient Container (list string) :=
  {| GetContainersInNamespaces labelSelector cache :=
       ((containers, None), cache) |}.

(** The report is the list of the names of the images it was given. *)
Definition report (generator : AreaReport)
    (images : list (@ScannedImage Container)) (cache : list string)
  : (option (list string) * option error) * list string :=
  ((Some (ImageName <$> images), None), cache).

Definition cluster : list Container :=
  [{| ContainerName := "web-1"; ContainerImage := "a" |};
   {| ContainerName := "db"; ContainerImage := "broken" |};
   {| ContainerName := "web-2"; ContainerImage := "a" |}].

Definition settings (workers : Z) (rules : string) : Config :=
  {| LogLevel := "info"; Workers := workers; ImageNameReplacement := rules;
     AreaLabels := "area"; TeamsLabels := "team"; FilterLabels := "";
     Severity_ := "CRITICAL,HIGH"; ScanImageTimeout := 60 |}.

Definition scanner (workers : Z) (rules : string) (database : option error)
  : @Scanner Container (list string) string :=
  {| config := settings workers rules;
     kubernetesClient := kubernetes cluster;
     dockerClient := docker;
     trivyClient := trivy database |}.

Definition images : gmap string (list Container) :=
  groupContainersByImageName ContainerImage cluster.

Definition start : @Env Container (list string) :=
  {| world := []; calls := [] |}.


(** A cluster in which nothing runs. *)
Definition idle : @Scanner Container (list string) string :=
  {| config := settings 2 "";
     kubernetesClient := kubernetes [];
     dockerClient := docker;
     trivyClient := trivy None |}.

(** A cluster of one container. *)
Definition lonely : gmap string (list Container) :=
  groupContainersByImageName ContainerImage
    [{| ContainerName := "web-1"; ContainerImage := "a" |}].

(** One function after the other. *)
Definition oneByOne : list nat := [0; 0; 0; 0; 0; 1; 1; 1; 1; 1].

(** Both functions evaluate [append(scannedImages, ...)] before either
    assigns its result. *)
Definition overlapping : list nat := [0; 1; 0; 1; 0; 1; 0; 1; 0; 1].

End Example.

Section Arithmetic.

Lemma wrap_small z : (- 2 ^ 63 ≤ z < 2 ^ 63)%Z → wrap z = z.
Proof.
  intros Hz. unfold wrap.
  rewrite Z.mod_small; lia.
Qed.

Lemma wrap_0 : wrap 0 = 0%Z.
Proof. vm_compute. reflexivity. Qed.

Lemma wrap_eq_iff a b : wrap a = wrap b ↔ (a mod 2 ^ 64 = b mod 2 ^ 64)%Z.
Proof.
  unfold wrap. split; intros H.
  - assert (Heq : ((a + 2 ^ 63) mod 2 ^ 64 = (b + 2 ^ 63) mod 2 ^ 64)%Z) by lia.
    rewrite <- (Z.add_simpl_r a (2 ^ 63)), <- (Z.add_simpl_r b (2 ^ 63)).
    rewrite <- Zminus_mod_idemp_l, Heq, Zminus_mod_idemp_l. done.
  - rewrite <- Zplus_mod_idemp_l, H, Zplus_mod_idemp_l. done.
Qed.

Lemma wrap_mod z : (wrap z mod 2 ^ 64 = z mod 2 ^ 64)%Z.
Proof.
  unfold wrap.
  rewrite Zminus_mod_idemp_l.
  f_equal. lia.
Qed.

Lemma wrap_add_l a b : wrap (wrap a + b) = wrap (a + b).
Proof.
  apply wrap_eq_iff.
  rewrite <- Zplus_mod_idemp_l, wrap_mod, Zplus_mod_idemp_l. done.
Qed.

Lemma wrap_add_r a b : wrap (a + wrap b) = wrap (a + b).
Proof. rewrite (Z.add_comm a), wrap_add_l. f_equal. lia. Qed.

Lemma wrap_shift a b k : (a = b + k * 2 ^ 64)%Z → wrap a = wrap b.
Proof. intros ->. apply wrap_eq_iff. apply Z_mod_plus_full. Qed.

Lemma wrap_decompose z : ∃ k, (wrap z = z + k * 2 ^ 64)%Z.
Proof.
  exists (- ((z + 2 ^ 63) / 2 ^ 64))%Z. unfold wrap.
  pose proof (Z.div_mod (z + 2 ^ 63) (2 ^ 64)) as Hd. lia.
Qed.

Lemma sumZ_app l1 l2 : sumZ (l1 ++ l2) = (sumZ l1 + sumZ l2)%Z.
Proof. induction l1 as [|x l1 IH]; simpl; [done | rewrite IH; lia]. Qed.

Lemma sumZ_Permutation l1 l2 : l1 ≡ₚ l2 → sumZ l1 = sumZ l2.
Proof. induction 1; simpl; lia. Qed.

Lemma total_Permutation e1 e2 : e1 ≡ₚ e2 → total e1 = total e2.
Proof. intros H. unfold total. apply sumZ_Permutation. by rewrite H. Qed.

End Arithmetic.

#[global] Opaque wrap.

(** ** The summarizer *)

Section Summarizer.

Lemma severityScores_lookup sev :
  severityScores !! sev =
    if decide (sev = "CRITICAL") then Some critical
    else if decide (sev = "HIGH") then Some high
    else if decide (sev = "MEDIUM") then Some medium
    else if decide (sev = "LOW") then Some low
    else if decide (sev = "UNKNOWN") then Some unknown
    else None.
Proof.
  unfold severityScores.
  rewrite !list_to_map_cons, list_to_map_nil.
  repeat (rewrite lookup_insert; case_decide; subst;
          [repeat case_decide; congruence|]).
  rewrite lookup_empty.
  repeat case_decide; congruence.
Qed.

Lemma severityScores_known sev :
  is_Some (severityScores !! sev) ↔ sev ∈ knownSeverities.
Proof.
  rewrite severityScores_lookup. unfold knownSeverities.
  rewrite !elem_of_cons, elem_of_nil.
  repeat (case_decide; [split; [tauto | eauto] |]).
  split; [intros [? ?]; discriminate | tauto].
Qed.

Lemma weight_unrecognized sev :
  sev ∉ knownSeverities → at_ severityScores sev = 0%Z.
Proof.
  intros H. unfold at_.
  destruct (severityScores !! sev) eqn:E; [|done].
  exfalso. apply H, severityScores_known. eauto.
Qed.

Lemma weight_bounds sev : (0 ≤ at_ severityScores sev ≤ critical)%Z.
Proof.
  unfold at_. rewrite severityScores_lookup.
  repeat case_decide; simpl; unfold critical, high, medium, low, unknown; lia.
Qed.

Lemma weight_below_critical sev :
  sev ∈ ["HIGH"; "MEDIUM"; "LOW"; "UNKNOWN"] →
  (0 ≤ at_ severityScores sev ≤ high)%Z.
Proof.
  rewrite !elem_of_cons, elem_of_nil. unfold at_.
  rewrite severityScores_lookup.
  intros [->|[->|[->|[->|[]]]]]; simpl;
    unfold high, medium, low, unknown; lia.
Qed.

Lemma zeroCounts_from (keys : list (string * Z)) (m : gmap string Z) sev :
  foldl (λ severityMap entry, <[entry.1 := 0%Z]> severityMap) m keys !! sev =
    if decide (sev ∈ keys.*1) then Some 0%Z else m !! sev.
Proof.
  revert m. induction keys as [|[k v] keys IH]; intros m.
  - simpl. destruct (decide (sev ∈ [])) as [H|_]; [|done].
    by apply elem_of_nil in H.
  - cbn [foldl fmap list_fmap fst]. rewrite IH.
    destruct (decide (sev ∈ keys.*1)) as [Hin|Hout].
    + rewrite decide_True; [done | by apply elem_of_cons; right].
    + destruct (decide (sev = k)) as [->|Hne].
      * rewrite lookup_insert_eq, decide_True; [done | by apply elem_of_cons; left].
      * rewrite lookup_insert_ne by done.
        rewrite decide_False; [done|].
        rewrite elem_of_cons. tauto.
Qed.

(** The first loop gives the same map whatever the order in which the
    keys of [severityScores] are visited. *)
Lemma zeroCounts_lookup (keys : list (string * Z)) sev :
  keys ≡ₚ map_to_list severityScores →
  zeroCounts keys !! sev =
    if decide (sev ∈ knownSeverities) then Some 0%Z else None.
Proof.
  intros Hp. unfold zeroCounts. rewrite zeroCounts_from, lookup_empty.
  assert (sev ∈ keys.*1 ↔ sev ∈ knownSeverities) as Hiff.
  { rewrite Hp. rewrite <- severityScores_known.
    rewrite list_elem_of_fmap. split.
    - intros [[k v] [-> Hin]]. apply elem_of_map_to_list in Hin. eauto.
    - intros [v Hv]. exists (sev, v). split; [done|].
      by apply elem_of_map_to_list. }
  destruct (decide (sev ∈ keys.*1)), (decide (sev ∈ knownSeverities));
    tauto.
Qed.

Lemma occurrences_cons sev x l :
  occurrences sev (x :: l) =
    if decide (x = sev) then S (occurrences sev l) else occurrences sev l.
Proof.
  unfold occurrences. rewrite filter_cons.
  destruct (decide (x = sev)); done.
Qed.

Lemma occurrences_absent sev l : sev ∉ l → occurrences sev l = 0.
Proof.
  induction l as [|x l IH]; intros Hout; [done|].
  rewrite occurrences_cons. rewrite not_elem_of_cons in Hout.
  destruct Hout as [Hne Hout].
  rewrite decide_False by congruence. auto.
Qed.

Lemma occurrences_present sev l : sev ∈ l → (0 < occurrences sev l)%nat.
Proof.
  induction l as [|x l IH]; intros Hin; [by apply elem_of_nil in Hin|].
  rewrite occurrences_cons.
  destruct (decide (x = sev)); [lia|].
  apply elem_of_cons in Hin as [->|Hin]; [done | auto].
Qed.

Lemma at_insert_eq (m : gmap string Z) k c : at_ (<[k := c]> m) k = c.
Proof. unfold at_. by rewrite lookup_insert_eq. Qed.

Lemma at_insert_ne (m : gmap string Z) k k' c :
  k ≠ k' → at_ (<[k := c]> m) k' = at_ m k'.
Proof. intros H. unfold at_. by rewrite lookup_insert_ne. Qed.

(** The second loop, over the findings of one target after the other, is
    one loop over all findings. *)
Lemma countTarget_concat (m : gmap string Z) out :
  foldl countTarget m out =
    foldl countVulnerability m (concat (Vulnerabilities_ <$> out)).
Proof.
  revert m. induction out as [|t out IH]; intros m; [done|].
  cbn [foldl fmap list_fmap concat]. rewrite foldl_app. apply IH.
Qed.

Lemma countVulnerability_lookup vs (m : gmap string Z) sev :
  foldl countVulnerability m vs !! sev =
    if decide (sev ∈ Severity <$> vs)
    then Some (wrap (at_ m sev
                     + Z.of_nat (occurrences sev (Severity <$> vs))))
    else m !! sev.
Proof.
  revert m. induction vs as [|v vs IH]; intros m.
  - simpl. destruct (decide (sev ∈ [])) as [H|_]; [|done].
    by apply elem_of_nil in H.
  - cbn [foldl fmap list_fmap]. rewrite IH. unfold countVulnerability.
    rewrite occurrences_cons.
    destruct (decide (Severity v = sev)) as [<-|Hne].
    + rewrite (decide_True (P := _ ∈ _ :: _)) by (apply elem_of_cons; by left).
      rewrite at_insert_eq, lookup_insert_eq. unfold int_add.
      destruct (decide (Severity v ∈ Severity <$> vs)) as [Hin|Hout].
      * rewrite wrap_add_l. f_equal. f_equal. lia.
      * rewrite (occurrences_absent _ _ Hout). reflexivity.
    + rewrite at_insert_ne, lookup_insert_ne by done.
      destruct (decide (sev ∈ Severity <$> vs)) as [Hin|Hout].
      * rewrite decide_True; [done | apply elem_of_cons; by right].
      * rewrite decide_False; [done|].
        rewrite elem_of_cons. intros [?|?]; congruence.
Qed.

(** The histogram: the five known severities and every severity seen,
    each with the number of its findings. *)
Lemma severityMapOf_lookup out sev :
  severityMapOf out !! sev =
    if decide (sev ∈ knownSeverities ∨ sev ∈ severitiesOf out)
    then Some (wrap (Z.of_nat (occurrences sev (severitiesOf out))))
    else None.
Proof.
  unfold severityMapOf, severitiesOf.
  rewrite countTarget_concat, countVulnerability_lookup.
  pose proof (zeroCounts_lookup (map_to_list severityScores) sev
                (reflexivity _)) as Hz.
  set (zero := zeroCounts (map_to_list severityScores)) in *.
  set (vs := concat (Vulnerabilities_ <$> out)).
  unfold at_. rewrite Hz.
  destruct (decide (sev ∈ Severity <$> vs)) as [Hin|Hout].
  - rewrite (decide_True (P := _ ∨ _)) by (by right).
    destruct (decide (sev ∈ knownSeverities)); reflexivity.
  - rewrite (occurrences_absent _ _ Hout).
    change (Z.of_nat 0) with 0%Z. rewrite wrap_0.
    destruct (decide (sev ∈ knownSeverities)) as [Hk|Hk].
    + rewrite (decide_True (P := _ ∨ _)) by (by left). reflexivity.
    + rewrite (decide_False (P := _ ∨ _)); [reflexivity | tauto].
Qed.

(** *** The severity score *)

Lemma total_cons k c entries :
  total ((k, c) :: entries) = (c * at_ severityScores k + total entries)%Z.
Proof. reflexivity. Qed.

Lemma total_insert (m : gmap string Z) k c :
  total (map_to_list (<[k := c]> m)) =
    (total (map_to_list m) + (c - at_ m k) * at_ severityScores k)%Z.
Proof.
  unfold at_ at 1. destruct (m !! k) as [c0|] eqn:E; simpl.
  - rewrite <- (total_Permutation _ _ (map_to_list_delete m k c0 E)).
    rewrite <- insert_delete_eq.
    rewrite (total_Permutation _ _
               (map_to_list_insert (delete k m) k c (lookup_delete_eq m k))).
    rewrite !total_cons. lia.
  - rewrite (total_Permutation _ _ (map_to_list_insert m k c E)).
    rewrite total_cons. lia.
Qed.

Lemma total_count (m : gmap string Z) vs :
  wrap (total (map_to_list (foldl countVulnerability m vs))) =
    wrap (total (map_to_list m)
          + sumZ (at_ severityScores <$> (Severity <$> vs))).
Proof.
  revert m. induction vs as [|v vs IH]; intros m.
  - simpl. f_equal. lia.
  - cbn [foldl fmap list_fmap sumZ foldr]. rewrite IH.
    unfold countVulnerability, int_add. rewrite total_insert.
    destruct (wrap_decompose (at_ m (Severity v) + 1)) as [k ->].
    apply (wrap_shift _ _ (k * at_ severityScores (Severity v))).
    fold (sumZ (at_ severityScores <$> (Severity <$> vs))). ring.
Qed.

Lemma addScore_total entries a :
  foldl addScore (wrap a) entries = wrap (a + total entries).
Proof.
  revert a. induction entries as [|[k c] entries IH]; intros a.
  - simpl. f_equal. unfold total. simpl. lia.
  - cbn [foldl]. unfold addScore at 2, int_add, int_mul. cbn [fst snd].
    rewrite wrap_add_l, wrap_add_r, IH, total_cons. f_equal. lia.
Qed.

(** The third loop gives the same score whatever the order in which the
    entries of the histogram are visited. *)
Lemma sumScores_total entries : sumScores entries = wrap (total entries).
Proof.
  unfold sumScores. rewrite <- wrap_0 at 1. by rewrite addScore_total.
Qed.

Lemma sumScores_Permutation e1 e2 : e1 ≡ₚ e2 → sumScores e1 = sumScores e2.
Proof.
  intros H. rewrite !sumScores_total. f_equal. by apply total_Permutation.
Qed.

Lemma total_zeroCounts :
  total (map_to_list (zeroCounts (map_to_list severityScores))) = 0%Z.
Proof. vm_compute. reflexivity. Qed.

Context {ContainerSummary : Type}.
Implicit Types i : @ScannedImage ContainerSummary.

(** The invariant of the summary: the score is the weighted sum of the
    findings, in 64-bit arithmetic. *)
Lemma SeverityScore_weightOf i :
  SeverityScore (buildVulnerabilitySummary i) =
    wrap (weightOf (TrivyOutputResults_ i)).
Proof.
  unfold buildVulnerabilitySummary. cbn [SeverityScore].
  rewrite sumScores_total. unfold severityMapOf.
  rewrite countTarget_concat, total_count, total_zeroCounts.
  reflexivity.
Qed.

Lemma sumZ_upper (l : list Z) hi :
  Forall (λ x, 0 ≤ x ≤ hi)%Z l →
  (0 ≤ sumZ l ≤ Z.of_nat (length l) * hi)%Z.
Proof.
  induction 1 as [|x l Hx _ IH]; simpl; [lia|].
  rewrite Nat2Z.inj_succ. lia.
Qed.

Lemma sumZ_lower (l : list Z) x :
  Forall (λ y, 0 ≤ y)%Z l → x ∈ l → (x ≤ sumZ l)%Z.
Proof.
  induction 1 as [|y l Hy Hl IH]; intros Hin.
  - by apply elem_of_nil in Hin.
  - simpl. apply elem_of_cons in Hin as [->|Hin].
    + assert (0 ≤ sumZ l)%Z; [|lia].
      clear IH. induction Hl; simpl; lia.
    + specialize (IH Hin). lia.
Qed.

Lemma weightOf_upper out :
  (0 ≤ weightOf out ≤ Z.of_nat (length (severitiesOf out)) * critical)%Z.
Proof.
  unfold weightOf.
  rewrite <- (length_fmap (at_ severityScores) (severitiesOf out)).
  apply sumZ_upper, Forall_fmap, Forall_forall. intros sev _.
  apply weight_bounds.
Qed.

Lemma weightOf_critical out :
  "CRITICAL" ∈ severitiesOf out → (critical ≤ weightOf out)%Z.
Proof.
  intros Hin. unfold weightOf.
  apply sumZ_lower.
  - apply Forall_fmap, Forall_forall. intros sev _. apply weight_bounds.
  - apply list_elem_of_fmap. exists "CRITICAL". split; [|done].
    unfold at_. by rewrite severityScores_lookup.
Qed.

Lemma weightOf_below_critical out :
  Forall (λ sev, sev ∈ ["HIGH"; "MEDIUM"; "LOW"; "UNKNOWN"])
         (severitiesOf out) →
  (0 ≤ weightOf out ≤ Z.of_nat (length (severitiesOf out)) * high)%Z.
Proof.
  intros Hall. unfold weightOf.
  rewrite <- (length_fmap (at_ severityScores) (severitiesOf out)).
  apply sumZ_upper, Forall_fmap. eapply Forall_impl; [exact Hall|].
  intros sev Hsev. by apply weight_below_critical.
Qed.

Lemma weightOf_dropSeverity sev out :
  at_ severityScores sev = 0%Z →
  weightOf (dropSeverity sev out) = weightOf out.
Proof.
  intros Hzero. unfold weightOf, severitiesOf, dropSeverity.
  induction out as [|t out IH]; [done|].
  cbn [fmap list_fmap concat Vulnerabilities_].
  rewrite !fmap_app, !sumZ_app. f_equal; [|exact IH].
  clear IH. induction (Vulnerabilities_ t) as [|v vs IHv]; [done|].
  rewrite filter_cons.
  destruct (decide (Severity v ≠ sev)) as [Hne|Heq].
  - cbn [fmap list_fmap sumZ foldr]. f_equal. exact IHv.
  - apply dec_stable in Heq. cbn [fmap list_fmap sumZ foldr].
    rewrite Heq, Hzero. change (sumZ ?l) with (sumZ l) in IHv.
    fold (sumZ (at_ severityScores <$> (Severity <$> vs))).
    rewrite <- IHv. lia.
Qed.

Lemma severityMapOf_dom out :
  dom (severityMapOf out) =
    (list_to_set knownSeverities ∪ list_to_set (severitiesOf out)
     : gset string).
Proof.
  apply set_eq. intros sev.
  rewrite elem_of_dom, severityMapOf_lookup, elem_of_union,
    !elem_of_list_to_set.
  destruct (decide (sev ∈ knownSeverities ∨ sev ∈ severitiesOf out))
    as [Hin|Hout].
  - split; eauto.
  - split; [intros [? ?]; discriminate | tauto].
Qed.

Lemma severityMapOf_size out :
  size (severityMapOf out) =
    5 + size (list_to_set (severitiesOf out) ∖ list_to_set knownSeverities
              : gset string).
Proof.
  rewrite <- size_dom, severityMapOf_dom.
  set (known := list_to_set knownSeverities : gset string).
  set (seen := list_to_set (severitiesOf out) : gset string).
  assert (Hsplit : known ∪ seen = known ∪ (seen ∖ known)).
  { apply set_eq. intros x. rewrite !elem_of_union, elem_of_difference.
    destruct (decide (x ∈ known)); tauto. }
  rewrite Hsplit, size_union.
  - f_equal.
  - apply disjoint_difference_r1. done.
Qed.

(** C3, as amended. For every set of scan-target finding lists, the empty
    one included, the histogram of the summary holds each of the five keys
    CRITICAL, HIGH, MEDIUM, LOW, UNKNOWN with the (64-bit) number of
    findings of that severity, zero when there is none; its keys are these
    five and every other severity string that occurs among the findings,
    so that it has five keys plus one per distinct unrecognized string. *)
Theorem histogram_has_known_and_seen_keys i :
  let histogram := TotalVulnerabilityBySeverity (buildVulnerabilitySummary i) in
  let seen := severitiesOf (TrivyOutputResults_ i) in
  Forall (λ sev, histogram !! sev
                 = Some (wrap (Z.of_nat (occurrences sev seen))))
         knownSeverities
  ∧ Forall (λ sev, histogram !! sev
                   = Some (if decide (sev ∈ seen)
                           then wrap (Z.of_nat (occurrences sev seen))
                           else 0%Z))
           knownSeverities
  ∧ dom histogram = (list_to_set knownSeverities ∪ list_to_set seen : gset string)
  ∧ size histogram
    = 5 + size (list_to_set seen ∖ list_to_set knownSeverities : gset string).
Proof.
  cbn zeta. cbn [TotalVulnerabilityBySeverity buildVulnerabilitySummary].
  split; [|split; [|split]].
  - apply Forall_forall. intros sev Hk.
    rewrite severityMapOf_lookup, decide_True by (by left). done.
  - apply Forall_forall. intros sev Hk.
    rewrite severityMapOf_lookup, decide_True by (by left).
    destruct (decide (sev ∈ severitiesOf (TrivyOutputResults_ i)))
      as [Hin|Hout]; [done|].
    rewrite (occurrences_absent _ _ Hout).
    change (Z.of_nat 0) with 0%Z. by rewrite wrap_0.
  - apply severityMapOf_dom.
  - apply severityMapOf_size.
Qed.

(** C4, as amended. When the first finding set holds at least one CRITICAL
    finding (and so few findings that its weighted sum fits a 64-bit int)
    and the second holds only HIGH, MEDIUM, LOW and UNKNOWN findings and
    at most 99 of them, the SeverityScore of the first is strictly greater
    than that of the second. *)
Theorem critical_outweighs_up_to_99_lower i1 i2 :
  "CRITICAL" ∈ severitiesOf (TrivyOutputResults_ i1) →
  (Z.of_nat (length (severitiesOf (TrivyOutputResults_ i1))) * critical
     < 2 ^ 63)%Z →
  Forall (λ sev, sev ∈ ["HIGH"; "MEDIUM"; "LOW"; "UNKNOWN"])
         (severitiesOf (TrivyOutputResults_ i2)) →
  (length (severitiesOf (TrivyOutputResults_ i2)) ≤ 99)%nat →
  (SeverityScore (buildVulnerabilitySummary i2)
     < SeverityScore (buildVulnerabilitySummary i1))%Z.
Proof.
  intros Hcrit Hfit Hlower Hcount.
  rewrite !SeverityScore_weightOf.
  pose proof (weightOf_upper (TrivyOutputResults_ i1)) as Hu1.
  pose proof (weightOf_critical _ Hcrit) as Hc1.
  pose proof (weightOf_below_critical _ Hlower) as Hu2.
  unfold critical, high in *.
  rewrite !wrap_small by lia. lia.
Qed.

(** C10. A finding whose severity string is none of the five known levels
    adds that string as a key of the histogram, with the (64-bit) number of
    its occurrences, so that the histogram has more than five keys; the
    string has weight zero, and the SeverityScore is the one of the same
    scan without the findings of that severity. *)
Theorem unrecognized_severity_counted_not_scored i i' sev :
  sev ∈ severitiesOf (TrivyOutputResults_ i) →
  sev ∉ knownSeverities →
  TrivyOutputResults_ i' = dropSeverity sev (TrivyOutputResults_ i) →
  let histogram := TotalVulnerabilityBySeverity (buildVulnerabilitySummary i) in
  histogram !! sev
    = Some (wrap (Z.of_nat (occurrences sev
                              (severitiesOf (TrivyOutputResults_ i)))))
  ∧ (0 < occurrences sev (severitiesOf (TrivyOutputResults_ i)))%nat
  ∧ (5 < size histogram)%nat
  ∧ at_ severityScores sev = 0%Z
  ∧ SeverityScore (buildVulnerabilitySummary i)
    = SeverityScore (buildVulnerabilitySummary i').
Proof.
  intros Hseen Hunknown Hi'. cbn zeta.
  cbn [TotalVulnerabilityBySeverity buildVulnerabilitySummary].
  pose proof (weight_unrecognized _ Hunknown) as Hzero.
  split; [|split; [|split; [|split]]].
  - rewrite severityMapOf_lookup, decide_True by (by right). done.
  - by apply occurrences_present.
  - rewrite severityMapOf_size.
    assert (Hin : sev ∈ (list_to_set (severitiesOf (TrivyOutputResults_ i))
                         ∖ list_to_set knownSeverities : gset string)).
    { rewrite elem_of_difference, !elem_of_list_to_set. done. }
    assert (size (list_to_set (severitiesOf (TrivyOutputResults_ i))
                  ∖ list_to_set knownSeverities : gset string) ≠ 0)%nat;
      [|lia].
    intros Hsz. apply size_empty_inv in Hsz.
    apply (proj1 (elem_of_equiv_empty _) Hsz sev Hin).
  - exact Hzero.
  - rewrite !SeverityScore_weightOf, Hi'.
    by rewrite weightOf_dropSeverity.
Qed.

End Summarizer.

(** ** The image name resolver *)

Section Resolver.

Lemma prefix_append p s : String.prefix p (p +:+ s) = true.
Proof.
  induction p as [|a p IH]; simpl; [by destruct s|].
  destruct (ascii_dec a a); [exact IH | congruence].
Qed.

Lemma replaceFrom_skip old new p s :
  strings.replaceFrom old new (String.length p) (p +:+ s) =
    strings.replaceFrom old new 0 s.
Proof.
  induction p as [|a p IH]; simpl; [|exact IH].
  destruct s; reflexivity.
Qed.

Lemma replaceFrom_occurrence a old new s :
  strings.replaceFrom (String a old) new 0 (String a old +:+ s) =
    new +:+ strings.replaceFrom (String a old) new 0 s.
Proof.
  simpl. destruct (ascii_dec a a) as [_|]; [|congruence].
  by rewrite prefix_append, replaceFrom_skip.
Qed.

(** [Replace] is literal and global: an occurrence of a non-empty [old] at
    the head of the string is replaced by [new] and the search goes on
    behind it; a byte that does not start an occurrence is kept. *)
Lemma Replace_occurrence old new s :
  old ≠ "" →
  strings.Replace (old +:+ s) old new = new +:+ strings.Replace s old new.
Proof.
  intros Hold. unfold strings.Replace.
  destruct (String.eqb_spec old new) as [->|Hne]; [done|].
  destruct old as [|a old]; [done|].
  apply replaceFrom_occurrence.
Qed.

Lemma Replace_other old new c s :
  old ≠ "" →
  String.prefix old (String c s) = false →
  strings.Replace (String c s) old new = String c (strings.Replace s old new).
Proof.
  intros Hold Hpre. unfold strings.Replace.
  destruct (String.eqb_spec old new) as [->|Hne]; [done|].
  destruct old as [|a old]; [done|].
  cbn [strings.replaceFrom]. by rewrite Hpre.
Qed.

Lemma Replace_empty old new : old ≠ "" → strings.Replace "" old new = "".
Proof.
  intros Hold. unfold strings.Replace.
  destruct (String.eqb_spec old new) as [->|Hne]; [done|].
  by destruct old.
Qed.

Lemma stringReplacement_entries imageName rules :
  stringReplacement imageName rules = replaceEach imageName (entriesOf rules).
Proof.
  unfold stringReplacement, entriesOf.
  by destruct (String.eqb rules "").
Qed.

Lemma replaceEach_rule imageName entry rule rest :
  twoParts entry = Some rule →
  replaceEach imageName (entry :: rest) =
    replaceEach (applyRule imageName rule) rest.
Proof.
  unfold twoParts. cbn [replaceEach].
  destruct (strings.Split entry "|") as [|m [|r [|? ?]]]; try discriminate.
  by intros [= <-].
Qed.

Lemma replaceEach_malformed imageName entry rest :
  twoParts entry = None →
  replaceEach imageName (entry :: rest) = (imageName, Some formatError).
Proof.
  unfold twoParts. cbn [replaceEach].
  by destruct (strings.Split entry "|") as [|m [|r [|? ?]]].
Qed.

Lemma replaceEach_rules imageName entries rules rest :
  Forall2 (λ entry rule, twoParts entry = Some rule) entries rules →
  replaceEach imageName (entries ++ rest) =
    replaceEach (foldl applyRule imageName rules) rest.
Proof.
  intros H. revert imageName.
  induction H as [|entry rule entries rules Hr _ IH]; intros imageName.
  - done.
  - cbn [app foldl]. rewrite (replaceEach_rule _ _ _ _ Hr). apply IH.
Qed.

(** What the resolver returns when an entry is malformed: the name as the
    rules before the first such entry left it, and the format error. *)
Lemma stringReplacement_malformed imageName rules before bad after parsed :
  entriesOf rules = before ++ bad :: after →
  Forall2 (λ entry rule, twoParts entry = Some rule) before parsed →
  twoParts bad = None →
  stringReplacement imageName rules =
    (foldl applyRule imageName parsed, Some formatError).
Proof.
  intros Hsplit Hbefore Hbad.
  rewrite stringReplacement_entries, Hsplit.
  rewrite (replaceEach_rules _ _ _ _ Hbefore).
  by apply replaceEach_malformed.
Qed.

(** C5. The rules of a rule string are applied in the order listed, each
    one by [strings.Replace] on the result of the one before; that
    replacement is literal and global: it replaces an occurrence of the
    match string at the head of the name and goes on behind it, and keeps
    a byte that starts no occurrence. "foo|bar,bar|baz" rewrites
    "registry/foo:latest" to "registry/baz:latest". *)
Theorem rules_apply_cumulatively_in_order imageName rules parsed :
  Forall2 (λ entry rule, twoParts entry = Some rule)
          (entriesOf rules) parsed →
  stringReplacement imageName rules
    = (foldl applyRule imageName parsed, None)
  ∧ (∀ old new rest,
        old ≠ "" →
        strings.Replace (old +:+ rest) old new
        = new +:+ strings.Replace rest old new)
  ∧ (∀ old new c rest,
        old ≠ "" →
        String.prefix old (String c rest) = false →
        strings.Replace (String c rest) old new
        = String c (strings.Replace rest old new))
  ∧ (∀ old new, old ≠ "" → strings.Replace "" old new = "")
  ∧ stringReplacement "registry/foo:latest" "foo|bar,bar|baz"
    = ("registry/baz:latest", None).
Proof.
  intros Hrules. split; [|split; [|split; [|split]]].
  - rewrite stringReplacement_entries.
    rewrite <- (app_nil_r (entriesOf rules)).
    by rewrite (replaceEach_rules _ _ _ _ Hrules).
  - intros old new rest. apply Replace_occurrence.
  - intros old new c rest. apply Replace_other.
  - intros old new. apply Replace_empty.
  - by vm_compute.
Qed.

End Resolver.

(** ** The image grouper *)

Section Grouper.

Context {ContainerSummary : Type} (Image : ContainerSummary → string).
Implicit Types (images : gmap string (list ContainerSummary))
               (container : ContainerSummary)
               (containers : list ContainerSummary).

(** The body of the loop of [groupContainersByImageName]. *)
Let addContainer images container :=
  let images' :=
    match images !! Image container with
    | Some _ => images
    | None => <[Image container := []]> images
    end in
  <[Image container :=
      default [] (images' !! Image container) ++ [container]]> images'.

Lemma addContainer_insert images container :
  addContainer images container =
    <[Image container :=
        default [] (images !! Image container) ++ [container]]> images.
Proof.
  unfold addContainer.
  destruct (images !! Image container) as [group|] eqn:E.
  - by rewrite E.
  - by rewrite lookup_insert_eq, insert_insert_eq.
Qed.

Lemma filter_image_absent image containers :
  image ∉ Image <$> containers →
  filter (λ c, Image c = image) containers = [].
Proof.
  induction containers as [|c containers IH]; intros Hout; [done|].
  rewrite fmap_cons, not_elem_of_cons in Hout. destruct Hout as [Hne Hout].
  rewrite filter_cons, decide_False by congruence. auto.
Qed.

Lemma group_lookup_from images containers image :
  foldl addContainer images containers !! image =
    if decide (image ∈ Image <$> containers)
    then Some (default [] (images !! image)
               ++ filter (λ c, Image c = image) containers)
    else images !! image.
Proof.
  revert images. induction containers as [|c containers IH]; intros images.
  - simpl. destruct (decide (image ∈ [])) as [H|_]; [|done].
    by apply elem_of_nil in H.
  - cbn [foldl]. rewrite IH, addContainer_insert, fmap_cons, filter_cons.
    destruct (decide (Image c = image)) as [<-|Hne].
    + rewrite lookup_insert_eq.
      rewrite (decide_True (P := _ ∈ _ :: _)) by (apply elem_of_cons; by left).
      destruct (decide (Image c ∈ Image <$> containers)) as [Hin|Hout].
      * cbn [from_option id]. by rewrite <- app_assoc.
      * by rewrite (filter_image_absent _ _ Hout).
    + rewrite lookup_insert_ne by done.
      destruct (decide (image ∈ Image <$> containers)) as [Hin|Hout].
      * rewrite decide_True; [done | apply elem_of_cons; by right].
      * rewrite decide_False; [done|].
        rewrite elem_of_cons. intros [?|?]; congruence.
Qed.

Lemma group_members_insert images image container :
  concat (map_to_list (<[image := default [] (images !! image)
                                   ++ [container]]> images)).*2
  ≡ₚ concat (map_to_list images).*2 ++ [container].
Proof.
  destruct (images !! image) as [g|] eqn:E; cbn [from_option id].
  - rewrite <- (map_to_list_delete images image g E).
    rewrite <- insert_delete_eq.
    rewrite (map_to_list_insert (delete image images) image _
               (lookup_delete_eq images image)).
    cbn [fmap list_fmap concat snd]. rewrite <- !app_assoc.
    apply Permutation_app_head, Permutation_app_comm.
  - rewrite (map_to_list_insert images image _ E).
    cbn [fmap list_fmap concat snd app]. apply Permutation_cons_append.
Qed.

Lemma group_members_from images containers :
  concat (map_to_list (foldl addContainer images containers)).*2
  ≡ₚ concat (map_to_list images).*2 ++ containers.
Proof.
  revert images. induction containers as [|c containers IH]; intros images.
  - by rewrite app_nil_r.
  - cbn [foldl]. rewrite IH, addContainer_insert.
    rewrite (group_members_insert images (Image c) c).
    by rewrite <- app_assoc.
Qed.

(** C6. The grouper partitions its input: the group of an image reference
    is the list of the containers with that image, in the order of the
    input, so that a container of the input is in the group of its own image
    and in no other; the keys are the image references that occur; no group
    is empty; all groups together hold every container of the input exactly
    as often as the input does; the empty input gives the empty map. *)
Theorem grouping_partitions_containers containers :
  let groups := groupContainersByImageName Image containers in
  (∀ image,
      groups !! image =
        if decide (image ∈ Image <$> containers)
        then Some (filter (λ c, Image c = image) containers)
        else None)
  ∧ (∀ image group container,
        groups !! image = Some group →
        (container ∈ group
         ↔ container ∈ containers ∧ Image container = image))
  ∧ dom groups = (list_to_set (Image <$> containers) : gset string)
  ∧ map_Forall (λ _ group, group ≠ []) groups
  ∧ concat (map_to_list groups).*2 ≡ₚ containers
  ∧ groupContainersByImageName Image [] = ∅.
Proof.
  cbn zeta.
  assert (Hlookup : ∀ image,
             groupContainersByImageName Image containers !! image =
               if decide (image ∈ Image <$> containers)
               then Some (filter (λ c, Image c = image) containers)
               else None).
  { intros image.
    change (groupContainersByImageName Image containers)
      with (foldl addContainer ∅ containers).
    rewrite group_lookup_from, lookup_empty. done. }
  split; [exact Hlookup|]. split; [|split; [|split; [|split]]].
  - intros image group container. rewrite Hlookup.
    destruct (decide (image ∈ Image <$> containers)); [|discriminate].
    intros [= <-]. rewrite list_elem_of_filter. tauto.
  - apply set_eq. intros image.
    rewrite elem_of_dom, Hlookup, elem_of_list_to_set.
    destruct (decide (image ∈ Image <$> containers)); split; eauto.
    + intros [? ?]; discriminate.
    + tauto.
  - intros image group. rewrite Hlookup.
    destruct (decide (image ∈ Image <$> containers)) as [Hin|];
      [|discriminate].
    intros [= <-] Hnil.
    apply list_elem_of_fmap in Hin as [c [-> Hc]].
    assert (Hc' : c ∈ filter (λ c', Image c' = Image c) containers)
      by (by apply list_elem_of_filter).
    rewrite Hnil in Hc'. by apply elem_of_nil in Hc'.
  - change (groupContainersByImageName Image containers)
      with (foldl addContainer ∅ containers).
    by rewrite group_members_from, map_to_list_empty.
  - reflexivity.
Qed.

Lemma group_lookup containers image :
  groupContainersByImageName Image containers !! image =
    if decide (image ∈ Image <$> containers)
    then Some (filter (λ c, Image c = image) containers)
    else None.
Proof.
  change (groupContainersByImageName Image containers)
    with (foldl addContainer ∅ containers).
  rewrite group_lookup_from, lookup_empty. done.
Qed.

End Grouper.

(** ** The scan orchestration *)

Section Orchestration.

Context {ContainerSummary World CisScanOutput VulnerabilityReport : Type}.

Variable GenerateVulnerabilityReport :
  AreaReport → list (@ScannedImage ContainerSummary) →
  World → (option VulnerabilityReport * option error) * World.

Variable range :
  gmap string (list ContainerSummary) → list (string * list ContainerSummary).

Implicit Types (s : @Scanner ContainerSummary World CisScanOutput)
               (t : @Task ContainerSummary)
               (p : @Pool ContainerSummary World)
               (e : @Env ContainerSummary World)
               (image : @ScannedImage ContainerSummary)
               (imageList : gmap string (list ContainerSummary)).

Lemma stepTask_advances s i p p' :
  stepTask s i p = Some p' →
  ∃ t st,
    tasks p !! i = Some t
    ∧ advances s p t st (scannedImages p')
    ∧ tasks p' = <[i := withStage t st]> (tasks p).
Proof.
  unfold stepTask. destruct (tasks p !! i) as [t|] eqn:Et; [|discriminate].
  cbn [mbind option_bind]. intros Hstep. exists t.
  destruct (stage t) as [| |image|appended| |] eqn:Est.
  - destruct (canStart s i p); [|discriminate].
    destruct (external _ _ _) as [? e']. injection Hstep as <-.
    exists Pulled. split; [done|]. split; [|done].
    cbn [scannedImages]. by apply advances_pull.
  - unfold external in Hstep.
    pose proof (advances_scan s p t Est) as Hadv. unfold scanResult in Hadv.
    destruct (ScanImage _ _ _) as [[trivyOutput err] w].
    injection Hstep as <-. eexists. split; [done|]. split; [|done].
    cbn [scannedImages]. exact Hadv.
  - injection Hstep as <-. eexists. split; [done|]. split; [|done].
    cbn [scannedImages]. by apply advances_load.
  - injection Hstep as <-. eexists. split; [done|]. split; [|done].
    cbn [scannedImages]. by apply advances_store.
  - destruct (external _ _ _) as [? e']. injection Hstep as <-.
    exists Finished. split; [done|]. split; [|done].
    cbn [scannedImages]. by apply advances_remove.
  - discriminate.
Qed.

(** *** Every run ends, and some run completes *)

Lemma advances_remaining s p t st images :
  advances s p t st images →
  (remaining (withStage t st) < remaining t)%nat.
Proof.
  unfold remaining. destruct 1 as [H|H|? H|? H|H]; rewrite H; simpl; lia.
Qed.

Lemma sum_list_insert {A} (f : A → nat) (l : list A) i x y :
  l !! i = Some x →
  (sum_list (f <$> <[i := y]> l) + f x = sum_list (f <$> l) + f y)%nat.
Proof.
  revert i. induction l as [|z l IH]; intros [|i] Hi; try done.
  - injection Hi as ->. cbn. lia.
  - specialize (IH i Hi).
    change (<[S i := y]> (z :: l)) with (z :: <[i := y]> l).
    rewrite !fmap_cons. simpl. lia.
Qed.

Lemma filter_none {A} (P : A → Prop) `{∀ x, Decision (P x)} (l : list A) :
  Forall (λ x, ¬ P x) l → filter P l = [].
Proof.
  induction 1 as [|x l Hx _ IH]; [done|].
  by rewrite filter_cons, decide_False.
Qed.

Lemma stepTask_decreases s i p p' :
  stepTask s i p = Some p' → (stepsLeft p' < stepsLeft p)%nat.
Proof.
  intros Hstep.
  destruct (stepTask_advances _ _ _ _ Hstep) as (t & st & Ht & Hadv & Htasks).
  unfold stepsLeft. rewrite Htasks.
  pose proof (sum_list_insert remaining (tasks p) i t (withStage t st) Ht).
  pose proof (advances_remaining _ _ _ _ _ Hadv). lia.
Qed.

Lemma stepTask_running s i p t :
  tasks p !! i = Some t → isRunning t = true → is_Some (stepTask s i p).
Proof.
  intros Ht Hrun. unfold stepTask. rewrite Ht. cbn [mbind option_bind].
  unfold isRunning, isQueued, isFinished in Hrun.
  destruct (stage t); try discriminate; try done.
  - unfold external. destruct (ScanImage _ _ _) as [[? ?] ?]. done.
  - unfold external. destruct (RmiImage _ _ _) as [? ?]. done.
Qed.

Lemma stepTask_first_queued s i p t :
  tasks p !! i = Some t →
  isQueued t = true →
  Forall (λ t', isRunning t' ≠ true) (tasks p) →
  (∀ j t', tasks p !! j = Some t' → (j < i)%nat → isQueued t' ≠ true) →
  is_Some (stepTask s i p).
Proof.
  intros Ht Hq Hidle Hfirst. unfold stepTask. rewrite Ht.
  cbn [mbind option_bind]. unfold isQueued in Hq.
  destruct (stage t); try discriminate.
  assert (Hstart : canStart s i p = true).
  { unfold canStart. apply andb_true_intro. split.
    - rewrite (filter_none _ _ Hidle). unfold maxWorkers. apply Z.ltb_lt. simpl. lia.
    - apply forallb_forall. intros t' Hin.
      apply list_elem_of_In, list_elem_of_lookup in Hin as [j Hj].
      pose proof (lookup_lt_Some _ _ _ Hj) as Hlt.
      rewrite length_take in Hlt.
      rewrite lookup_take_lt in Hj by lia.
      specialize (Hfirst j t' Hj ltac:(lia)).
      by destruct (isQueued t'). }
  rewrite Hstart. unfold external. destruct (PullImage _ _ _) as [? ?]. done.
Qed.

(** While a submitted function is unfinished, some function can step. *)
Lemma pool_progress s p :
  forallb isFinished (tasks p) = false → ∃ i p', stepTask s i p = Some p'.
Proof.
  intros Hunfinished.
  destruct (list_find (λ t, isRunning t = true) (tasks p))
    as [[i t]|] eqn:Erun.
  { apply list_find_Some in Erun as (Ht & Hrun & _).
    destruct (stepTask_running s i p t Ht Hrun) as [p' Hp']. eauto. }
  apply list_find_None in Erun.
  destruct (list_find (λ t, isQueued t = true) (tasks p))
    as [[i t]|] eqn:Equeued.
  { apply list_find_Some in Equeued as (Ht & Hq & Hfirst).
    destruct (stepTask_first_queued s i p t Ht Hq Erun) as [p' Hp']; eauto. }
  apply list_find_None in Equeued.
  exfalso. apply not_true_iff_false in Hunfinished. apply Hunfinished.
  apply forallb_forall. intros t Hin. apply list_elem_of_In in Hin.
  rewrite Forall_forall in Erun, Equeued.
  specialize (Erun t Hin). specialize (Equeued t Hin).
  unfold isRunning in Erun.
  destruct (isQueued t), (isFinished t); simpl in *; congruence.
Qed.

(** [wp.StopWait] returns under some schedule, from every pool. *)
Lemma pool_completes s p :
  ∃ schedule p',
    run s schedule p = Some p' ∧ forallb isFinished (tasks p') = true.
Proof.
  remember (stepsLeft p) as n eqn:Hn. revert p Hn.
  induction n as [n IH] using lt_wf_ind. intros p ->.
  destruct (forallb isFinished (tasks p)) eqn:Hdone.
  - exists [], p. done.
  - destruct (pool_progress s p Hdone) as (i & p1 & Hstep).
    destruct (IH (stepsLeft p1) (stepTask_decreases _ _ _ _ Hstep) p1 eq_refl)
      as (schedule & p' & Hrun & Hfin).
    exists (i :: schedule), p'. split; [|done].
    cbn [run]. rewrite Hstep. done.
Qed.

(** *** Runs that interrupt no append *)

Lemma accounted_shared s shared shared' t r :
  isLoaded t = false → accounted s shared t r → accounted s shared' t r.
Proof.
  unfold accounted, isLoaded. destruct (stage t), r; done.
Qed.

Lemma accounted_insert s shared shared' (ts : list Task) res i t' r' :
  Forall2 (accounted s shared) ts res →
  (∀ j t, ts !! j = Some t → j ≠ i → isLoaded t = false) →
  accounted s shared' t' r' →
  Forall2 (accounted s shared') (<[i := t']> ts) (<[i := r']> res).
Proof.
  intros Hall Hothers Hnew.
  apply Forall2_same_length_lookup_2.
  - rewrite !length_insert. by eapply Forall2_length.
  - intros j x y Hx Hy.
    apply list_lookup_insert_Some in Hx as [(-> & <- & _)|[Hne Hx]].
    + apply list_lookup_insert_Some in Hy as [(_ & <- & _)|[Hne _]]; done.
    + apply list_lookup_insert_Some in Hy as [(Heq & _)|[_ Hy]]; [done|].
      apply (accounted_shared s shared); [by eapply Hothers|].
      by eapply Forall2_lookup_lr.
Qed.

Lemma omap_insert_new {A} (res : list (option A)) i x :
  res !! i = Some None →
  omap id (<[i := Some x]> res) ≡ₚ omap id res ++ [x].
Proof.
  revert i. induction res as [|a res IH]; intros [|i] Hi; try done.
  - injection Hi as ->. apply Permutation_cons_append.
  - change (<[S i := Some x]> (a :: res)) with (a :: <[i := Some x]> res).
    destruct a as [y|]; cbn [omap list_omap id].
    + change (omap id (Some y :: ?l)) with (y :: omap id l).
      rewrite !(IH i Hi). done.
    + by apply IH.
Qed.



Lemma stepTask_identity s i p p' :
  stepTask s i p = Some p' → identity <$> tasks p' = identity <$> tasks p.
Proof.
  intros Hstep.
  destruct (stepTask_advances _ _ _ _ Hstep) as (t & st & Ht & _ & ->).
  rewrite list_fmap_insert. apply list_insert_id.
  by rewrite list_lookup_fmap, Ht.
Qed.

Lemma run_identity s schedule p p' :
  run s schedule p = Some p' → identity <$> tasks p' = identity <$> tasks p.
Proof.
  revert p. induction schedule as [|i rest IH]; intros p Hrun.
  - by injection Hrun as <-.
  - cbn [run] in Hrun.
    destruct (stepTask s i p) as [p1|] eqn:Hstep; [|discriminate].
    rewrite (IH p1 Hrun). by eapply stepTask_identity.
Qed.

Lemma identity_submit s entry :
  identity (submit s entry)
  = (resolvedName (ImageNameReplacement (config s)) entry.1, entry.2).
Proof.
  destruct entry as [imageName containers]. unfold submit, resolvedName.
  by destruct (stringReplacement _ _).
Qed.

Lemma consistent_submitted s imageList e next :
  consistent s (submitted range s imageList e) next
    (replicate (length (range imageList)) None).
Proof.
  unfold submitted. split; cbn [tasks scannedImages].
  - apply Forall2_same_length_lookup_2.
    + by rewrite length_fmap, length_replicate.
    + intros j t r Ht Hr.
      apply list_lookup_fmap_Some in Ht as (entry & -> & _).
      apply lookup_replicate in Hr as [-> _].
      destruct entry as [imageName containers]. unfold accounted, submit.
      by destruct (stringReplacement _ _).
  - induction (length (range imageList)); done.
  - intros j t Ht Hl.
    apply list_lookup_fmap_Some in Ht as (entry & -> & _).
    destruct entry as [imageName containers]. unfold isLoaded, submit in Hl.
    by destruct (stringReplacement _ _).
Qed.

Lemma consistent_finished s (ts : list Task) shared res :
  Forall2 (accounted s shared) ts res →
  forallb isFinished ts = true →
  Forall2 (λ t image,
             ∃ w, image = scanResult s (resolvedImageName t)
                            (resolvedContainers t) w)
          ts (omap id res).
Proof.
  induction 1 as [|t r ts res Hacc _ IH]; intros Hfin; [constructor|].
  cbn [forallb] in Hfin. apply andb_prop in Hfin as [Ht Hts].
  unfold isFinished in Ht. unfold accounted in Hacc.
  destruct (stage t); try discriminate.
  destruct r as [image|]; [|done].
  change (omap id (Some image :: res)) with (image :: omap id res).
  constructor; auto.
Qed.

Lemma scanImages_downloaded s imageList schedule e w :
  DownloadDatabase (trivyClient s) "image" (world e) = (None, w) →
  scanImages range s imageList schedule e =
    p ← run s schedule (submitted range s imageList (downloaded e w));
    if forallb isFinished (tasks p)
    then Some ((scannedImages p, None), env p)
    else None.
Proof.
  intros Hdb. unfold scanImages, external. by rewrite Hdb.
Qed.



(** *** One worker interrupts no append *)

Lemma filter_length_insert {A} (P : A → Prop) `{∀ x, Decision (P x)}
    (l : list A) i x y :
  l !! i = Some x →
  (length (filter P (<[i := y]> l)) + (if decide (P x) then 1 else 0)
   = length (filter P l) + (if decide (P y) then 1 else 0))%nat.
Proof.
  revert i. induction l as [|z l IH]; intros [|i] Hi; try done.
  - injection Hi as ->.
    change (<[0 := y]> (x :: l)) with (y :: l). rewrite !filter_cons.
    destruct (decide (P x)), (decide (P y)); simpl; lia.
  - specialize (IH i Hi).
    change (<[S i := y]> (z :: l)) with (z :: <[i := y]> l).
    rewrite !filter_cons. destruct (decide (P z)); simpl; lia.
Qed.

Lemma filter_length_lookup {A} (P : A → Prop) `{∀ x, Decision (P x)}
    (l : list A) i x :
  l !! i = Some x → P x → (1 ≤ length (filter P l))%nat.
Proof.
  revert i. induction l as [|z l IH]; intros [|i] Hi HP; try done.
  - injection Hi as ->. rewrite filter_cons, decide_True by done. simpl. lia.
  - specialize (IH i Hi HP). rewrite filter_cons.
    destruct (decide (P z)); simpl; lia.
Qed.

Lemma filter_length_lookup_two {A} (P : A → Prop) `{∀ x, Decision (P x)}
    (l : list A) i j x y :
  i ≠ j → l !! i = Some x → l !! j = Some y → P x → P y →
  (2 ≤ length (filter P l))%nat.
Proof.
  revert i j. induction l as [|z l IH]; intros [|i] [|j] Hne Hi Hj Hx Hy;
    try done.
  - injection Hi as ->. rewrite filter_cons, decide_True by done.
    pose proof (filter_length_lookup P l j y Hj Hy). simpl. lia.
  - injection Hj as ->. rewrite filter_cons, decide_True by done.
    pose proof (filter_length_lookup P l i x Hi Hx). simpl. lia.
  - assert (Hne' : i ≠ j) by congruence.
    specialize (IH i j Hne' Hi Hj Hx Hy). rewrite filter_cons.
    destruct (decide (P z)); simpl; lia.
Qed.

Lemma stepTask_canStart s i p p' t :
  stepTask s i p = Some p' → tasks p !! i = Some t → stage t = Queued →
  canStart s i p = true.
Proof.
  unfold stepTask. intros Hstep Ht Hst. rewrite Ht in Hstep.
  cbn [mbind option_bind] in Hstep. rewrite Hst in Hstep.
  by destruct (canStart s i p).
Qed.

Lemma canStart_free s i p :
  canStart s i p = true → (Z.of_nat (runningCount p) < maxWorkers s)%Z.
Proof.
  unfold canStart, runningCount. intros H.
  apply andb_prop in H as [H _]. by apply Z.ltb_lt.
Qed.

(** The pool never runs more functions than it has workers. *)
Lemma stepTask_within_workers s i p p' :
  stepTask s i p = Some p' →
  (Z.of_nat (runningCount p) ≤ maxWorkers s)%Z →
  (Z.of_nat (runningCount p') ≤ maxWorkers s)%Z.
Proof.
  intros Hstep Hle.
  destruct (stepTask_advances _ _ _ _ Hstep) as (t & st & Ht & Hadv & Hp').
  pose proof (filter_length_insert (λ t, isRunning t = true) (tasks p) i t
                (withStage t st) Ht) as Hcount.
  unfold runningCount in *. rewrite Hp'. cbn beta in Hcount.
  assert (Hfree : stage t = Queued →
                  (Z.of_nat (length (filter (λ t, isRunning t = true)
                                       (tasks p))) < maxWorkers s)%Z).
  { intros Hst.
    apply (canStart_free s i p), (stepTask_canStart _ _ _ _ _ Hstep Ht Hst). }
  destruct (decide (isRunning t = true)) as [Hb|Hb],
           (decide (isRunning (withStage t st) = true)) as [Ha|Ha];
    try lia.
  destruct (stage t) eqn:Hst; [specialize (Hfree eq_refl); lia|..];
    exfalso; apply Hb; unfold isRunning, isQueued, isFinished;
    rewrite Hst; try done.
  inversion Hadv; congruence.
Qed.

Lemma isLoaded_running t : isLoaded t = true → isRunning t = true.
Proof.
  unfold isLoaded, isRunning, isQueued, isFinished. by destruct (stage t).
Qed.

(** With one worker, only the function that is inside its append can move. *)
Lemma single_worker_next s i j p p' t :
  maxWorkers s = 1%Z →
  (runningCount p ≤ 1)%nat →
  tasks p !! i = Some t → isLoaded t = true →
  stepTask s j p = Some p' →
  j = i.
Proof.
  intros Hone Hle Ht Hl Hstep.
  destruct (decide (j = i)) as [|Hne]; [done|]. exfalso.
  pose proof (isLoaded_running _ Hl) as Hrun.
  destruct (stepTask_advances _ _ _ _ Hstep) as (t' & st & Ht' & Hadv & _).
  destruct (stage t') eqn:Hst.
  - pose proof (canStart_free _ _ _
                  (stepTask_canStart _ _ _ _ _ Hstep Ht' Hst)) as Hfree.
    pose proof (filter_length_lookup (λ t, isRunning t = true) _ _ _ Ht Hrun)
      as Hbusy.
    unfold runningCount in Hfree. lia.
  - assert (Hrun' : isRunning t' = true)
      by (unfold isRunning, isQueued, isFinished; by rewrite Hst).
    pose proof (filter_length_lookup_two (λ t, isRunning t = true) _ _ _ _ _
                  Hne Ht' Ht Hrun' Hrun).
    unfold runningCount in Hle. lia.
  - assert (Hrun' : isRunning t' = true)
      by (unfold isRunning, isQueued, isFinished; by rewrite Hst).
    pose proof (filter_length_lookup_two (λ t, isRunning t = true) _ _ _ _ _
                  Hne Ht' Ht Hrun' Hrun).
    unfold runningCount in Hle. lia.
  - assert (Hrun' : isRunning t' = true)
      by (unfold isRunning, isQueued, isFinished; by rewrite Hst).
    pose proof (filter_length_lookup_two (λ t, isRunning t = true) _ _ _ _ _
                  Hne Ht' Ht Hrun' Hrun).
    unfold runningCount in Hle. lia.
  - assert (Hrun' : isRunning t' = true)
      by (unfold isRunning, isQueued, isFinished; by rewrite Hst).
    pose proof (filter_length_lookup_two (λ t, isRunning t = true) _ _ _ _ _
                  Hne Ht' Ht Hrun' Hrun).
    unfold runningCount in Hle. lia.
  - destruct Hadv as [H|H|? H|? H|H]; congruence.
Qed.

Lemma single_worker_uninterrupted s schedule p p' :
  maxWorkers s = 1%Z →
  (runningCount p ≤ 1)%nat →
  run s schedule p = Some p' →
  forallb isFinished (tasks p') = true →
  uninterrupted s schedule p = true.
Proof.
  intros Hone. revert p.
  induction schedule as [|i rest IH]; intros p Hle Hrun Hfin; [done|].
  cbn [run] in Hrun. cbn [uninterrupted].
  destruct (stepTask s i p) as [p1|] eqn:Hstep; [|done].
  cbn [mbind option_bind] in Hrun.
  assert (Hle1 : (runningCount p1 ≤ 1)%nat).
  { pose proof (stepTask_within_workers _ _ _ _ Hstep) as Hw. lia. }
  specialize (IH p1 Hle1 Hrun Hfin).
  destruct (tasks p1 !! i) as [t|] eqn:Ht; [|done]. cbn [fmap option_fmap option_map].
  destruct (isLoaded t) eqn:Hl; [|done].
  destruct rest as [|j rest'].
  - injection Hrun as <-.
    rewrite forallb_forall in Hfin.
    assert (Hin : In t (tasks p1)).
    { apply list_elem_of_In, list_elem_of_lookup. eauto. }
    specialize (Hfin t Hin). unfold isFinished in Hfin.
    unfold isLoaded in Hl. by destruct (stage t).
  - cbn [run] in Hrun.
    destruct (stepTask s j p1) as [p2|] eqn:Hstep2; [|done].
    assert (j = i) as ->
      by exact (single_worker_next _ _ _ _ _ _ Hone Hle1 Ht Hl Hstep2).
    rewrite Nat.eqb_refl. exact IH.
Qed.

(** With at most one worker configured, every run of [scanImages] that
    returns has interrupted no append. *)
Lemma single_worker_scan_uninterrupted s imageList schedule e p :
  (Workers (config s) ≤ 1)%Z →
  run s schedule (submitted range s imageList e) = Some p →
  forallb isFinished (tasks p) = true →
  uninterrupted s schedule (submitted range s imageList e) = true.
Proof.
  intros Hone Hrun Hfin.
  apply (single_worker_uninterrupted s schedule _ p); try done.
  - unfold maxWorkers. lia.
  - unfold runningCount, submitted. cbn [tasks].
    rewrite filter_none; [simpl; lia|].
    apply Forall_fmap, Forall_forall. intros [imageName containers] _.
    unfold compose, submit, isRunning, isQueued.
    by destruct (stringReplacement _ _).
Qed.




(** C1, as amended. When the rule string has an entry that does not split
    into exactly two parts on "|" (a part may be empty), and the rules before
    the first such entry leave the image name as it is (so whenever there
    are none), the resolver returns the original name together with the
    format error; the caller goes on with the name the resolver returned:
    the function it submits scans under that name. *)
Theorem malformed_rule_gives_format_error
    s imageName containers before bad after parsed :
  entriesOf (ImageNameReplacement (config s)) = before ++ bad :: after →
  Forall2 (λ entry rule, twoParts entry = Some rule) before parsed →
  twoParts bad = None →
  foldl applyRule imageName parsed = imageName →
  stringReplacement imageName (ImageNameReplacement (config s))
  = (imageName, Some formatError)
  ∧ submit s (imageName, containers)
    = {| resolvedImageName :=
           (stringReplacement imageName
              (ImageNameReplacement (config s))).1;
         resolvedContainers := containers;
         stage := Queued |}.
Proof.
  intros Hsplit Hbefore Hbad Hsame. split.
  - rewrite (stringReplacement_malformed _ _ _ _ _ _ Hsplit Hbefore Hbad).
    by rewrite Hsame.
  - unfold submit. by destruct (stringReplacement _ _).
Qed.

(** C9, as amended. [CisScan] calls the compliance engine once, for the
    named benchmark. When the engine fails, the report aggregator is not
    called and the error returned carries the cause behind a fixed prefix
    (the benchmark is not named in it). When the engine succeeds, the
    aggregator is called once, with no images: the output of the engine is
    not passed on. *)
Theorem CisScan_calls_engine_once s benchmark e :
  match CisScan_ (trivyClient s) benchmark (world e) with
  | ((_, Some cause), w) =>
      CisScan GenerateVulnerabilityReport s benchmark e
      = ((None, Some ("error executing trivy cluster scan: " +:+ cause)),
         {| world := w; calls := calls e ++ [CisScanCall benchmark] |})
  | ((_, None), w) =>
      CisScan GenerateVulnerabilityReport s benchmark e
      = let '(answer, w') :=
          GenerateVulnerabilityReport (reportGeneratorOf s) [] w in
        (answer,
         {| world := w';
            calls := (calls e ++ [CisScanCall benchmark])
                     ++ [GenerateVulnerabilityReportCall
                           (reportGeneratorOf s) []] |})
  end.
Proof.
  unfold CisScan, mbind, M_bind, external.
  destruct (CisScan_ (trivyClient s) benchmark (world e))
    as [[trivyOutput [cause|]] w]; reflexivity.
Qed.

End Orchestration.

(** ** More on the image name resolver *)

Section ResolverLaws.

Lemma Split_not_nil s sep : strings.Split s sep ≠ [].
Proof.
  destruct s as [|c s]; cbn [strings.Split]; [done|].
  destruct (Ascii.eqb c sep); [done|].
  by destruct (strings.Split s sep).
Qed.

Lemma Split_length s sep :
  length (strings.Split s sep) = S (countByte sep s).
Proof.
  induction s as [|c s IH]; [done|].
  cbn [strings.Split countByte].
  destruct (Ascii.eqb c sep).
  - cbn [length]. rewrite IH. lia.
  - pose proof (Split_not_nil s sep) as Hne.
    destruct (strings.Split s sep) as [|p ps]; [done|].
    cbn [length] in *. lia.
Qed.

Lemma Split_plain s sep : countByte sep s = 0 → strings.Split s sep = [s].
Proof.
  induction s as [|c s IH]; [done|].
  cbn [strings.Split countByte].
  destruct (Ascii.eqb c sep); [lia|].
  intros Hs. by rewrite (IH Hs).
Qed.

Lemma Split_append s rest sep :
  countByte sep s = 0 →
  strings.Split (s +:+ String sep rest) sep = s :: strings.Split rest sep.
Proof.
  induction s as [|c s IH].
  - intros _. simpl. by rewrite Ascii.eqb_refl.
  - change (String c s +:+ String sep rest)
      with (String c (s +:+ String sep rest)).
    cbn [strings.Split countByte].
    destruct (Ascii.eqb c sep); [lia|].
    intros Hs. by rewrite (IH Hs).
Qed.

Lemma countByte_app sep s1 s2 :
  countByte sep (s1 +:+ s2) = (countByte sep s1 + countByte sep s2)%nat.
Proof.
  induction s1 as [|c s1 IH]; [done|].
  change (String c s1 +:+ s2) with (String c (s1 +:+ s2)).
  cbn [countByte]. rewrite IH. lia.
Qed.

(** An entry is a rule when it holds the byte "|" once. *)
Lemma twoParts_single_bar entry :
  is_Some (twoParts entry) ↔ countByte "|" entry = 1.
Proof.
  unfold twoParts. pose proof (Split_length entry "|") as Hlen.
  destruct (strings.Split entry "|") as [|m [|r [|? ?]]]; cbn [length] in Hlen.
  - lia.
  - split; [intros [? ?]; discriminate | lia].
  - split; [lia | eauto].
  - split; [intros [? ?]; discriminate | lia].
Qed.

Lemma twoParts_None entry :
  twoParts entry = None ↔ countByte "|" entry ≠ 1.
Proof.
  rewrite <- twoParts_single_bar, eq_None_not_Some. done.
Qed.

Lemma twoParts_encodeRule rule :
  countByte "|" rule.1 = 0 → countByte "|" rule.2 = 0 →
  twoParts (encodeRule rule) = Some rule.
Proof.
  destruct rule as [m r]. cbn [fst snd]. intros Hm Hr.
  unfold twoParts, encodeRule. cbn [fst snd].
  change ("|" +:+ r) with (String "|" r).
  rewrite (Split_append _ _ _ Hm), (Split_plain _ _ Hr). done.
Qed.

Lemma replaceEach_error imageName entries :
  (replaceEach imageName entries).2 =
    if forallb (λ entry, countByte "|" entry =? 1)%nat entries
    then None else Some formatError.
Proof.
  revert imageName. induction entries as [|entry rest IH]; intros imageName.
  - done.
  - cbn [forallb].
    destruct (twoParts entry) as [rule|] eqn:E.
    + rewrite (replaceEach_rule _ _ _ _ E), IH.
      assert (countByte "|" entry = 1) as ->
        by (apply twoParts_single_bar; eauto).
      done.
    + rewrite (replaceEach_malformed _ _ _ E).
      apply twoParts_None in E. apply Nat.eqb_neq in E. by rewrite E.
Qed.

(** X1. Whether the resolver reports a format error is decided by the rule
    string alone, not by the image name: it does when some entry of a
    non-empty rule string does not hold the byte "|" exactly once, and the
    error is then always the same one. The empty rule string gives no
    error. *)
Theorem format_error_iff_entry_without_single_bar imageName rules :
  (stringReplacement imageName rules).2 =
    if forallb (λ entry, countByte "|" entry =? 1)%nat
         (if String.eqb rules "" then [] else strings.Split rules ",")
    then None else Some formatError.
Proof.
  rewrite stringReplacement_entries. apply replaceEach_error.
Qed.

Lemma joinWith_cons sep piece rest :
  rest ≠ [] →
  joinWith sep (piece :: rest) = piece +:+ sep +:+ joinWith sep rest.
Proof. by destruct rest. Qed.

Lemma Split_joinWith sep pieces :
  pieces ≠ [] →
  Forall (λ piece, countByte sep piece = 0) pieces →
  strings.Split (joinWith (String sep "") pieces) sep = pieces.
Proof.
  intros Hne Hall. induction Hall as [|piece rest Hp Hrest IH]; [done|].
  destruct rest as [|piece' rest'].
  - cbn [joinWith]. by apply Split_plain.
  - rewrite joinWith_cons by done.
    change (String sep "" +:+ ?s) with (String sep s).
    rewrite (Split_append _ _ _ Hp), IH; done.
Qed.

Lemma encodeRules_not_empty rule rules :
  String.eqb (encodeRules (rule :: rules)) "" = false.
Proof.
  apply String.eqb_neq. intros Hempty.
  assert (Hcount : countByte "|" (encodeRules (rule :: rules)) = 0)
    by (by rewrite Hempty).
  unfold encodeRules in Hcount. rewrite fmap_cons in Hcount.
  destruct (encodeRule <$> rules) as [|e es].
  - cbn [joinWith] in Hcount. unfold encodeRule in Hcount.
    rewrite !countByte_app in Hcount. cbn in Hcount. lia.
  - rewrite joinWith_cons in Hcount by done. unfold encodeRule in Hcount.
    rewrite !countByte_app in Hcount. cbn in Hcount. lia.
Qed.

(** X2. Rules written in the documented format are read back as they were
    written: for rules whose parts hold neither "," nor "|", the resolver
    splits the rule string into exactly these rules and applies them, in
    order, without error. *)
Theorem written_rules_are_read_back imageName rules :
  Forall (λ rule, plainPart rule.1 ∧ plainPart rule.2) rules →
  entriesOf (encodeRules rules) = encodeRule <$> rules
  ∧ Forall2 (λ entry rule, twoParts entry = Some rule)
            (entriesOf (encodeRules rules)) rules
  ∧ stringReplacement imageName (encodeRules rules)
    = (foldl applyRule imageName rules, None).
Proof.
  intros Hplain.
  assert (Hentries : entriesOf (encodeRules rules) = encodeRule <$> rules).
  { destruct rules as [|rule rest]; [done|].
    unfold entriesOf. rewrite encodeRules_not_empty.
    unfold encodeRules. apply Split_joinWith; [done|].
    apply Forall_fmap. eapply Forall_impl; [exact Hplain|].
    intros [m r] [[Hm _] [Hr _]]. unfold compose, encodeRule.
    rewrite !countByte_app. cbn in *. lia. }
  assert (Hparsed : Forall2 (λ entry rule, twoParts entry = Some rule)
                            (entriesOf (encodeRules rules)) rules).
  { rewrite Hentries. apply Forall2_fmap_l, Forall_Forall2_diag.
    eapply Forall_impl; [exact Hplain|].
    intros rule [[_ Hm] [_ Hr]]. by apply twoParts_encodeRule. }
  split; [done|]. split; [done|].
  rewrite stringReplacement_entries.
  rewrite <- (app_nil_r (entriesOf (encodeRules rules))).
  by rewrite (replaceEach_rules _ _ _ _ Hparsed).
Qed.

Lemma replaceFrom_absent old new s :
  strings.Contains s old = false → strings.replaceFrom old new 0 s = s.
Proof.
  induction s as [|c s IH]; [done|].
  cbn [strings.Contains strings.replaceFrom].
  intros Habsent. apply orb_false_elim in Habsent as [Hprefix Hrest].
  rewrite Hprefix. by rewrite (IH Hrest).
Qed.

Lemma Replace_absent s old new :
  old = new ∨ (old ≠ "" ∧ strings.Contains s old = false) →
  strings.Replace s old new = s.
Proof.
  unfold strings.Replace.
  destruct (String.eqb_spec old new) as [|Hne]; [done|].
  intros [|[Hold Habsent]]; [done|].
  destruct old; [done|]. by apply replaceFrom_absent.
Qed.

(** X3. A rule whose match string does not occur in the image name, or
    whose replacement equals its match string, leaves the name as it is:
    when this holds for all rules of a well-formed rule string, the
    resolver returns the name it was given, without error. *)
Theorem rules_without_occurrence_keep_name imageName rules parsed :
  Forall2 (λ entry rule, twoParts entry = Some rule)
          (entriesOf rules) parsed →
  Forall (λ rule, rule.1 = rule.2
                  ∨ (rule.1 ≠ "" ∧ strings.Contains imageName rule.1 = false))
         parsed →
  stringReplacement imageName rules = (imageName, None).
Proof.
  intros Hparsed Hkeep.
  rewrite stringReplacement_entries.
  rewrite <- (app_nil_r (entriesOf rules)).
  rewrite (replaceEach_rules _ _ _ _ Hparsed). cbn [replaceEach].
  f_equal. clear Hparsed.
  induction Hkeep as [|rule rest Hrule _ IH]; [done|].
  cbn [foldl]. unfold applyRule at 2. by rewrite (Replace_absent _ _ _ Hrule).
Qed.

Lemma runeWidth_ASCII c s :
  (N_of_ascii c <? 0x80)%N = true → strings.runeWidth (String c s) = 1.
Proof.
  intros Hc. apply N.ltb_lt in Hc. unfold strings.runeWidth, strings.leadByte.
  assert ((N_of_ascii c <? 0xC2)%N = true) as -> by (apply N.ltb_lt; lia).
  done.
Qed.

Lemma insertAfterRunes_ASCII new s :
  isASCII s = true → strings.insertAfterRunes new 0 s = interleave new s.
Proof.
  induction s as [|c s IH]; [done|].
  cbn [isASCII]. intros Hs. apply andb_prop in Hs as [Hc Hs].
  cbn [strings.insertAfterRunes interleave].
  rewrite (runeWidth_ASCII _ _ Hc). cbn [pred]. by rewrite (IH Hs).
Qed.

(** X4. An entry with an empty match string is accepted as a rule: the
    entry "|" followed by a non-empty replacement free of separators
    rewrites an ASCII image name, without error, to the replacement
    followed by the name with the replacement written behind each of its
    bytes. *)
Theorem empty_match_string_is_applied_at_every_byte imageName new :
  new ≠ "" →
  plainPart new →
  isASCII imageName = true →
  stringReplacement imageName ("|" +:+ new)
  = (new +:+ interleave new imageName, None).
Proof.
  intros Hnew [Hcomma Hbar] Hascii.
  change ("|" +:+ new) with (String "|" new).
  unfold stringReplacement. cbn [String.eqb].
  assert (Hentry : strings.Split (String "|" new) "," = [String "|" new]).
  { apply Split_plain. cbn [countByte].
    change (Ascii.eqb "|" ",") with false. by rewrite Hcomma. }
  rewrite Hentry. cbn [replaceEach].
  change (String "|" new) with ("" +:+ String "|" new).
  rewrite (Split_append "" new "|" eq_refl), (Split_plain _ _ Hbar).
  cbn [replaceEach]. f_equal.
  unfold strings.Replace.
  destruct (String.eqb_spec "" new) as [<-|_]; [done|].
  by rewrite (insertAfterRunes_ASCII _ _ Hascii).
Qed.

Lemma Split_app s rest sep :
  strings.Split (s +:+ String sep rest) sep
  = strings.Split s sep ++ strings.Split rest sep.
Proof.
  induction s as [|c s IH].
  - simpl. by rewrite Ascii.eqb_refl.
  - change (String c s +:+ String sep rest)
      with (String c (s +:+ String sep rest)).
    cbn [strings.Split]. rewrite IH.
    destruct (Ascii.eqb c sep); [done|].
    pose proof (Split_not_nil s sep) as Hne.
    by destruct (strings.Split s sep).
Qed.

Lemma replaceEach_app imageName entries1 entries2 :
  replaceEach imageName (entries1 ++ entries2)
  = match replaceEach imageName entries1 with
    | (resolved, None) => replaceEach resolved entries2
    | failed => failed
    end.
Proof.
  revert imageName. induction entries1 as [|entry rest IH]; intros imageName.
  - done.
  - cbn [app]. destruct (twoParts entry) as [rule|] eqn:E.
    + by rewrite !(replaceEach_rule _ _ _ _ E), IH.
    + by rewrite !(replaceEach_malformed _ _ _ E).
Qed.

(** X5. Two rule strings joined by a comma act as the one after the
    other: the resolver applies the second to the name the first gives,
    unless the first gives a format error, which is then the outcome.
    (Neither rule string may be empty: an empty one leaves an empty entry
    behind, which is malformed.) *)
Theorem joined_rule_strings_apply_in_turn imageName rules1 rules2 :
  rules1 ≠ "" →
  rules2 ≠ "" →
  stringReplacement imageName (rules1 +:+ "," +:+ rules2)
  = match stringReplacement imageName rules1 with
    | (resolved, None) => stringReplacement resolved rules2
    | failed => failed
    end.
Proof.
  intros Hrules1 Hrules2. unfold stringReplacement.
  apply String.eqb_neq in Hrules1, Hrules2. rewrite Hrules1, Hrules2.
  change ("," +:+ rules2) with (String "," rules2).
  assert (String.eqb (rules1 +:+ String "," rules2) "" = false) as ->.
  { apply String.eqb_neq. by destruct rules1. }
  rewrite Split_app, replaceEach_app.
  by destruct (replaceEach imageName (strings.Split rules1 ",")) as [? [?|]].
Qed.

End ResolverLaws.

(** ** More on the summarizer *)

Section SummaryLaws.

Context {ContainerSummary : Type}.
Implicit Types i : @ScannedImage ContainerSummary.

Ltac decide_literals :=
  repeat match goal with
         | |- context [decide (?a = ?b)] =>
             first [ rewrite (decide_True (P := a = b)) by reflexivity
                   | rewrite (decide_False (P := a = b)) by discriminate ]
         end.

(** Gives every count of the goal a name, and records that it is not
    negative. *)
Ltac name_counts :=
  repeat match goal with
         | |- context [Z.of_nat (occurrences ?sev ?l)] =>
             let c := fresh "c" in
             pose proof (Nat2Z.is_nonneg (occurrences sev l));
             set (c := Z.of_nat (occurrences sev l)) in *;
             clearbody c
         end.

Lemma zeroCounts_Permutation keys :
  keys ≡ₚ map_to_list severityScores →
  zeroCounts keys = zeroCounts (map_to_list severityScores).
Proof.
  intros Hkeys. apply map_eq. intros sev.
  rewrite (zeroCounts_lookup keys sev Hkeys).
  by rewrite (zeroCounts_lookup (map_to_list severityScores) sev).
Qed.

(** X6. The summary does not depend on the order in which the two loops
    over a map visit its entries (Go leaves that order open): whatever the
    order of the keys of [severityScores] in the first loop and of the
    entries of the histogram in the third, the histogram and the score are
    the same. *)
Theorem summary_independent_of_map_order i keys entries :
  keys ≡ₚ map_to_list severityScores →
  entries ≡ₚ map_to_list
               (foldl countTarget (zeroCounts keys) (TrivyOutputResults_ i)) →
  {| ContainerCount := Z.of_nat (length (Containers i));
     SeverityScore := sumScores entries;
     TotalVulnerabilityBySeverity :=
       foldl countTarget (zeroCounts keys) (TrivyOutputResults_ i) |}
  = buildVulnerabilitySummary i.
Proof.
  intros Hkeys Hentries. unfold buildVulnerabilitySummary, severityMapOf.
  rewrite (zeroCounts_Permutation keys Hkeys) in *.
  by rewrite (sumScores_Permutation _ _ Hentries).
Qed.

Lemma weight_by_level sev :
  at_ severityScores sev =
    if decide (sev = "CRITICAL") then critical
    else if decide (sev = "HIGH") then high
    else if decide (sev = "MEDIUM") then medium
    else if decide (sev = "LOW") then low
    else if decide (sev = "UNKNOWN") then unknown
    else 0%Z.
Proof.
  unfold at_. rewrite severityScores_lookup. repeat case_decide; done.
Qed.

Lemma sumZ_weights (l : list string) :
  sumZ (at_ severityScores <$> l) =
    (critical * Z.of_nat (occurrences "CRITICAL" l)
     + high * Z.of_nat (occurrences "HIGH" l)
     + medium * Z.of_nat (occurrences "MEDIUM" l)
     + low * Z.of_nat (occurrences "LOW" l)
     + unknown * Z.of_nat (occurrences "UNKNOWN" l))%Z.
Proof.
  induction l as [|x l IH]; [done|].
  rewrite fmap_cons. cbn [sumZ foldr].
  fold (sumZ (at_ severityScores <$> l)).
  rewrite IH, weight_by_level, !occurrences_cons.
  destruct (decide (x = "CRITICAL")) as [->|?]; [decide_literals; lia|].
  destruct (decide (x = "HIGH")) as [->|?]; [decide_literals; lia|].
  destruct (decide (x = "MEDIUM")) as [->|?]; [decide_literals; lia|].
  destruct (decide (x = "LOW")) as [->|?]; [decide_literals; lia|].
  destruct (decide (x = "UNKNOWN")) as [->|?]; [decide_literals; lia|].
  lia.
Qed.

(** X7. The score is the weighted count of the findings of the five known
    severities, in 64-bit arithmetic: 100,000,000 for each CRITICAL
    finding, 1,000,000 for each HIGH, 10,000 for each MEDIUM, 100 for each
    LOW and 1 for each UNKNOWN one; it is that number itself when the
    number is below 2^63. *)
Theorem score_is_weighted_count i :
  let count sev :=
    Z.of_nat (occurrences sev (severitiesOf (TrivyOutputResults_ i))) in
  let sum :=
    (100000000 * count "CRITICAL" + 1000000 * count "HIGH"
     + 10000 * count "MEDIUM" + 100 * count "LOW" + count "UNKNOWN")%Z in
  SeverityScore (buildVulnerabilitySummary i) = wrap sum
  ∧ ((sum < 2 ^ 63)%Z → SeverityScore (buildVulnerabilitySummary i) = sum).
Proof.
  cbn beta zeta. rewrite SeverityScore_weightOf. unfold weightOf.
  rewrite sumZ_weights. unfold critical, high, medium, low, unknown.
  rewrite Z.mul_1_l. split; [done|].
  intros Hfit. apply wrap_small. lia.
Qed.

Lemma occurrences_app sev (l1 l2 : list string) :
  occurrences sev (l1 ++ l2) = (occurrences sev l1 + occurrences sev l2)%nat.
Proof. unfold occurrences. by rewrite filter_app, length_app. Qed.

Lemma severitiesOf_app out1 out2 :
  severitiesOf (out1 ++ out2) = severitiesOf out1 ++ severitiesOf out2.
Proof. unfold severitiesOf. by rewrite fmap_app, concat_app, fmap_app. Qed.

Lemma at_severityMapOf out sev :
  at_ (severityMapOf out) sev
  = wrap (Z.of_nat (occurrences sev (severitiesOf out))).
Proof.
  unfold at_. rewrite severityMapOf_lookup.
  destruct (decide (sev ∈ knownSeverities ∨ sev ∈ severitiesOf out))
    as [_|Hout]; [done|].
  rewrite occurrences_absent by tauto.
  change (Z.of_nat 0) with 0%Z. by rewrite wrap_0.
Qed.

(** X8. Summaries add up: the summary of a scan whose targets are those of
    two scans, one after the other, has as score the 64-bit sum of the two
    scores and, for every severity, as count the 64-bit sum of the two
    counts. *)
Theorem summary_of_joined_scans i1 i2 i :
  TrivyOutputResults_ i = TrivyOutputResults_ i1 ++ TrivyOutputResults_ i2 →
  SeverityScore (buildVulnerabilitySummary i)
  = int_add (SeverityScore (buildVulnerabilitySummary i1))
            (SeverityScore (buildVulnerabilitySummary i2))
  ∧ ∀ sev,
      at_ (TotalVulnerabilityBySeverity (buildVulnerabilitySummary i)) sev
      = int_add
          (at_ (TotalVulnerabilityBySeverity (buildVulnerabilitySummary i1))
             sev)
          (at_ (TotalVulnerabilityBySeverity (buildVulnerabilitySummary i2))
             sev).
Proof.
  intros Hjoin. split.
  - rewrite !SeverityScore_weightOf, Hjoin. unfold weightOf, int_add.
    rewrite severitiesOf_app, fmap_app, sumZ_app.
    by rewrite wrap_add_l, wrap_add_r.
  - intros sev. cbn [TotalVulnerabilityBySeverity buildVulnerabilitySummary].
    rewrite !at_severityMapOf, Hjoin, severitiesOf_app, occurrences_app.
    unfold int_add. rewrite wrap_add_l, wrap_add_r. f_equal. lia.
Qed.

Lemma occurrences_Permutation sev (l1 l2 : list string) :
  l1 ≡ₚ l2 → occurrences sev l1 = occurrences sev l2.
Proof. intros H. unfold occurrences. by rewrite H. Qed.

(** X9. The summary depends on the severities of the findings only, not on
    their order or on the targets they are reported for: two scans with
    the same severities, each as often in the one as in the other, have
    the same histogram and the same score. *)
Theorem summary_depends_on_severities_only i1 i2 :
  severitiesOf (TrivyOutputResults_ i1)
  ≡ₚ severitiesOf (TrivyOutputResults_ i2) →
  TotalVulnerabilityBySeverity (buildVulnerabilitySummary i1)
  = TotalVulnerabilityBySeverity (buildVulnerabilitySummary i2)
  ∧ SeverityScore (buildVulnerabilitySummary i1)
    = SeverityScore (buildVulnerabilitySummary i2).
Proof.
  intros Hsame. split.
  - cbn [TotalVulnerabilityBySeverity buildVulnerabilitySummary].
    apply map_eq. intros sev. rewrite !severityMapOf_lookup.
    rewrite (occurrences_Permutation sev _ _ Hsame).
    destruct (decide (sev ∈ knownSeverities
                      ∨ sev ∈ severitiesOf (TrivyOutputResults_ i1)))
      as [Hin|Hout];
      destruct (decide (sev ∈ knownSeverities
                        ∨ sev ∈ severitiesOf (TrivyOutputResults_ i2)))
        as [Hin'|Hout']; try done; exfalso.
    + apply Hout'. by rewrite <- Hsame.
    + apply Hout. by rewrite Hsame.
  - rewrite !SeverityScore_weightOf. unfold weightOf. f_equal.
    apply sumZ_Permutation. by apply fmap_Permutation.
Qed.

(** X10. While every severity below CRITICAL has at most 99 findings (and
    the score fits a 64-bit int), the score holds the five counts as the
    digits of a number of base 100: the counts can be read off it. *)
Theorem counts_can_be_read_off_the_score i :
  let count sev :=
    Z.of_nat (occurrences sev (severitiesOf (TrivyOutputResults_ i))) in
  let score := SeverityScore (buildVulnerabilitySummary i) in
  (100000000 * count "CRITICAL" + 100000000 ≤ 2 ^ 63)%Z →
  (count "HIGH" ≤ 99)%Z → (count "MEDIUM" ≤ 99)%Z →
  (count "LOW" ≤ 99)%Z → (count "UNKNOWN" ≤ 99)%Z →
  (score / 100000000 = count "CRITICAL"
   ∧ score / 1000000 mod 100 = count "HIGH"
   ∧ score / 10000 mod 100 = count "MEDIUM"
   ∧ score / 100 mod 100 = count "LOW"
   ∧ score mod 100 = count "UNKNOWN")%Z.
Proof.
  cbn beta zeta. intros Hfit Hhigh Hmedium Hlow Hunknown.
  rewrite SeverityScore_weightOf. unfold weightOf.
  rewrite sumZ_weights. unfold critical, high, medium, low, unknown.
  name_counts.
  rewrite wrap_small by lia.
  repeat split; Z.div_mod_to_equations; lia.
Qed.

(** X11. While every severity below CRITICAL has at most 99 findings in
    either of two scans (and the scores fit a 64-bit int), the scores
    order the scans by severity first: by the number of CRITICAL findings,
    among scans with as many CRITICAL findings by the number of HIGH ones,
    then by MEDIUM, LOW and UNKNOWN. *)
Theorem score_ranks_by_severity_first i1 i2 :
  let count i sev :=
    Z.of_nat (occurrences sev (severitiesOf (TrivyOutputResults_ i))) in
  let small i :=
    (100000000 * count i "CRITICAL" + 100000000 ≤ 2 ^ 63
     ∧ count i "HIGH" ≤ 99 ∧ count i "MEDIUM" ≤ 99
     ∧ count i "LOW" ≤ 99 ∧ count i "UNKNOWN" ≤ 99)%Z in
  small i1 →
  small i2 →
  (SeverityScore (buildVulnerabilitySummary i1)
   < SeverityScore (buildVulnerabilitySummary i2))%Z
  ↔ (count i1 "CRITICAL" < count i2 "CRITICAL"
     ∨ count i1 "CRITICAL" = count i2 "CRITICAL"
       ∧ (count i1 "HIGH" < count i2 "HIGH"
          ∨ count i1 "HIGH" = count i2 "HIGH"
            ∧ (count i1 "MEDIUM" < count i2 "MEDIUM"
               ∨ count i1 "MEDIUM" = count i2 "MEDIUM"
                 ∧ (count i1 "LOW" < count i2 "LOW"
                    ∨ count i1 "LOW" = count i2 "LOW"
                      ∧ count i1 "UNKNOWN" < count i2 "UNKNOWN"))))%Z.
Proof.
  cbn beta zeta. intros Hsmall1 Hsmall2.
  rewrite !SeverityScore_weightOf. unfold weightOf.
  rewrite !sumZ_weights. unfold critical, high, medium, low, unknown.
  name_counts.
  rewrite !wrap_small by lia. lia.
Qed.

Lemma weight_zero sev :
  at_ severityScores sev = 0%Z ↔ sev ∉ knownSeverities.
Proof.
  split; [|apply weight_unrecognized].
  rewrite weight_by_level. unfold knownSeverities.
  rewrite !not_elem_of_cons. unfold critical, high, medium, low, unknown.
  repeat case_decide; try discriminate. intros _.
  repeat split; try done. apply not_elem_of_nil.
Qed.

Lemma sumZ_nonneg (l : list Z) : Forall (λ x, 0 ≤ x)%Z l → (0 ≤ sumZ l)%Z.
Proof.
  induction 1 as [|x l Hx _ IH]; [done|].
  cbn [sumZ foldr]. fold (sumZ l). lia.
Qed.

Lemma sumZ_zero (l : list Z) :
  Forall (λ x, 0 ≤ x)%Z l → sumZ l = 0%Z ↔ Forall (λ x, x = 0%Z) l.
Proof.
  induction 1 as [|x l Hx Hl IH]; [done|].
  cbn [sumZ foldr]. fold (sumZ l).
  pose proof (sumZ_nonneg l Hl).
  rewrite Forall_cons, <- IH. lia.
Qed.

(** X12. While the weighted sum fits a 64-bit int, the score is never
    negative, and it is zero exactly when no finding has one of the five
    known severities. *)
Theorem score_zero_iff_no_known_severity i :
  (Z.of_nat (length (severitiesOf (TrivyOutputResults_ i))) * critical
     < 2 ^ 63)%Z →
  (0 ≤ SeverityScore (buildVulnerabilitySummary i))%Z
  ∧ (SeverityScore (buildVulnerabilitySummary i) = 0%Z
     ↔ Forall (λ sev, sev ∉ knownSeverities)
              (severitiesOf (TrivyOutputResults_ i))).
Proof.
  intros Hfit. rewrite SeverityScore_weightOf.
  pose proof (weightOf_upper (TrivyOutputResults_ i)) as Hbound.
  rewrite wrap_small by lia. split; [lia|].
  unfold weightOf. rewrite sumZ_zero.
  - rewrite Forall_fmap. apply Forall_iff. intros sev.
    unfold compose. apply weight_zero.
  - apply Forall_fmap, Forall_forall. intros sev _. apply weight_bounds.
Qed.

Lemma countSum_insert (m : gmap string Z) k c :
  countSum (<[k := c]> m) = (countSum m + c - at_ m k)%Z.
Proof.
  unfold countSum, at_. destruct (m !! k) as [c0|] eqn:E; cbn [from_option id].
  - rewrite <- (sumZ_Permutation _ _
                  (fmap_Permutation snd _ _ (map_to_list_delete m k c0 E))).
    rewrite <- insert_delete_eq.
    rewrite (sumZ_Permutation _ _
               (fmap_Permutation snd _ _
                  (map_to_list_insert (delete k m) k c
                     (lookup_delete_eq m k)))).
    rewrite !fmap_cons. cbn [sumZ foldr snd]. lia.
  - rewrite (sumZ_Permutation _ _
               (fmap_Permutation snd _ _ (map_to_list_insert m k c E))).
    rewrite fmap_cons. unfold sumZ. cbn [foldr snd]. lia.
Qed.

Lemma countSum_lower (m : gmap string Z) k :
  map_Forall (λ _ c, 0 ≤ c)%Z m → (0 ≤ at_ m k ≤ countSum m)%Z.
Proof.
  intros Hm.
  assert (Hall : Forall (λ c, 0 ≤ c)%Z (map_to_list m).*2).
  { apply Forall_fmap, Forall_forall. intros [k' c] Hin.
    apply elem_of_map_to_list in Hin. exact (Hm k' c Hin). }
  assert (Hsum : (0 ≤ countSum m)%Z) by (by apply sumZ_nonneg).
  unfold at_. destruct (m !! k) as [c|] eqn:E; cbn [from_option id]; [|lia].
  split; [exact (Hm k c E)|].
  apply sumZ_lower; [exact Hall|].
  apply list_elem_of_fmap. exists (k, c). split; [done|].
  by apply elem_of_map_to_list.
Qed.

Lemma countVulnerability_exact vs (m : gmap string Z) :
  map_Forall (λ _ c, 0 ≤ c)%Z m →
  (countSum m + Z.of_nat (length vs) < 2 ^ 63)%Z →
  map_Forall (λ _ c, 0 ≤ c)%Z (foldl countVulnerability m vs)
  ∧ countSum (foldl countVulnerability m vs)
    = (countSum m + Z.of_nat (length vs))%Z.
Proof.
  revert m. induction vs as [|v vs IH]; intros m Hm Hfit.
  - cbn [foldl length]. split; [done | lia].
  - cbn [foldl]. rewrite length_cons in *.
    pose proof (countSum_lower m (Severity v) Hm) as Hk.
    assert (Hone : int_add (at_ m (Severity v)) 1
                   = (at_ m (Severity v) + 1)%Z)
      by (unfold int_add; apply wrap_small; lia).
    assert (Hsum : countSum (countVulnerability m v) = (countSum m + 1)%Z).
    { unfold countVulnerability. rewrite countSum_insert, Hone. lia. }
    destruct (IH (countVulnerability m v)) as [Hall Hcount].
    + unfold countVulnerability. apply map_Forall_insert_2; [|done].
      rewrite Hone. lia.
    + lia.
    + split; [done|]. lia.
Qed.

Lemma zeroCounts_zero :
  map_Forall (λ _ c, 0 ≤ c)%Z (zeroCounts (map_to_list severityScores))
  ∧ countSum (zeroCounts (map_to_list severityScores)) = 0%Z.
Proof.
  split; [|by vm_compute].
  intros sev c.
  rewrite (zeroCounts_lookup (map_to_list severityScores) sev (reflexivity _)).
  case_decide; [|done]. intros [= <-]. done.
Qed.

(** X13. While there are fewer than 2^63 findings, the counts of the
    histogram are the exact numbers of findings and add up to the number
    of all findings of the scan: every finding is counted once, under its
    own severity. *)
Theorem histogram_counts_every_finding_once i :
  (Z.of_nat (length (severitiesOf (TrivyOutputResults_ i))) < 2 ^ 63)%Z →
  let histogram := TotalVulnerabilityBySeverity (buildVulnerabilitySummary i) in
  countSum histogram
  = Z.of_nat (length (severitiesOf (TrivyOutputResults_ i)))
  ∧ ∀ sev,
      at_ histogram sev
      = Z.of_nat (occurrences sev (severitiesOf (TrivyOutputResults_ i))).
Proof.
  intros Hfit. cbn zeta.
  cbn [TotalVulnerabilityBySeverity buildVulnerabilitySummary]. split.
  - unfold severityMapOf. rewrite countTarget_concat.
    destruct zeroCounts_zero as [Hzero Hsum].
    set (zero := zeroCounts (map_to_list severityScores)) in *.
    unfold severitiesOf in Hfit. rewrite length_fmap in Hfit.
    destruct (countVulnerability_exact
                (concat (Vulnerabilities_ <$> TrivyOutputResults_ i))
                zero Hzero) as [_ Hcount]; [lia|].
    rewrite Hcount, Hsum. unfold severitiesOf. rewrite length_fmap. lia.
  - intros sev. rewrite at_severityMapOf. apply wrap_small.
    assert (occurrences sev (severitiesOf (TrivyOutputResults_ i))
            ≤ length (severitiesOf (TrivyOutputResults_ i)))%nat
      by (unfold occurrences; apply length_filter).
    lia.
Qed.

End SummaryLaws.

(** ** More on the image grouper *)

Section GroupLaws.

Context {ContainerSummary : Type} (Image : ContainerSummary → string).
Implicit Types (container : ContainerSummary)
               (containers : list ContainerSummary).

Lemma group_default containers image :
  default [] (groupContainersByImageName Image containers !! image)
  = filter (λ c, Image c = image) containers.
Proof.
  rewrite group_lookup.
  destruct (decide (image ∈ Image <$> containers)) as [Hin|Hout]; [done|].
  by rewrite filter_image_absent.
Qed.

(** X14. Grouping goes along with concatenation: the group of an image in
    the containers of two lists, one after the other, is its group in the
    first followed by its group in the second (an image without group
    counting as one with no containers). *)
Theorem grouping_of_joined_lists containers1 containers2 image :
  default []
    (groupContainersByImageName Image (containers1 ++ containers2) !! image)
  = default [] (groupContainersByImageName Image containers1 !! image)
    ++ default [] (groupContainersByImageName Image containers2 !! image).
Proof. by rewrite !group_default, filter_app. Qed.

Lemma filter_all {A} (P : A → Prop) `{∀ x, Decision (P x)} (l : list A) :
  Forall P l → filter P l = l.
Proof.
  induction 1 as [|x l Hx _ IH]; [done|].
  by rewrite filter_cons, decide_True, IH.
Qed.

Lemma filter_groups (entries : list (string * list ContainerSummary)) image :
  NoDup entries.*1 →
  Forall (λ entry, Forall (λ c, Image c = entry.1) entry.2) entries →
  filter (λ c, Image c = image) (concat entries.*2)
  = default []
      ((λ found, found.2.2)
         <$> list_find (λ entry, entry.1 = image) entries).
Proof.
  intros Hnodup Hall.
  induction Hall as [|[k g] rest Hg _ IH]; [done|].
  rewrite fmap_cons in Hnodup. apply NoDup_cons in Hnodup as [Hk Hrest].
  rewrite fmap_cons. cbn [concat snd fst] in *. rewrite filter_app, (IH Hrest).
  cbn [list_find]. cbn [fst].
  destruct (decide (k = image)) as [->|Hne].
  - cbn [fmap option_fmap option_map snd from_option id].
    rewrite (filter_all _ _ Hg).
    destruct (list_find (λ entry, entry.1 = image) rest) as [[j [k' g']]|]
      eqn:Efind.
    + apply list_find_Some in Efind as (Hj & Hk' & _). cbn [fst] in Hk'.
      exfalso. apply Hk. apply list_elem_of_fmap. exists (k', g').
      split; [done|]. by eapply list_elem_of_lookup_2.
    + by rewrite app_nil_r.
  - rewrite (filter_none (λ c, Image c = image) g).
    + by destruct (list_find (λ entry, entry.1 = image) rest) as [[? [? ?]]|].
    + eapply Forall_impl; [exact Hg|]. cbn. congruence.
Qed.

(** X15. Grouping again what was grouped gives the same groups: when the
    groups are written one behind the other, in whatever order, the
    grouper makes of this list the map it was taken from. *)
Theorem grouping_the_groups_again containers entries :
  entries ≡ₚ map_to_list (groupContainersByImageName Image containers) →
  groupContainersByImageName Image (concat entries.*2)
  = groupContainersByImageName Image containers.
Proof.
  intros Hentries.
  set (groups := groupContainersByImageName Image containers) in *.
  assert (Hnodup : NoDup entries.*1).
  { rewrite Hentries. apply NoDup_fst_map_to_list. }
  assert (Hin : ∀ k g, (k, g) ∈ entries ↔ groups !! k = Some g).
  { intros k g. rewrite Hentries. apply elem_of_map_to_list. }
  assert (Hgroup : ∀ k g, groups !! k = Some g →
                          g = filter (λ c, Image c = k) containers ∧ g ≠ []).
  { intros k g. unfold groups. rewrite group_lookup.
    destruct (decide (k ∈ Image <$> containers)) as [Hk|]; [|discriminate].
    intros [= <-]. split; [done|]. intros Hnil.
    apply list_elem_of_fmap in Hk as [c [-> Hc]].
    assert (Hc' : c ∈ filter (λ c', Image c' = Image c) containers)
      by (by apply list_elem_of_filter).
    rewrite Hnil in Hc'. by apply elem_of_nil in Hc'. }
  assert (Hall : Forall (λ entry, Forall (λ c, Image c = entry.1) entry.2)
                        entries).
  { apply Forall_forall. intros [k g] Hkg. apply Hin, Hgroup in Hkg as [-> _].
    apply Forall_forall. intros c Hc.
    by apply list_elem_of_filter in Hc as [? _]. }
  assert (Hfind : ∀ image,
             (λ found, found.2.2)
               <$> list_find (λ entry, entry.1 = image) entries
             = groups !! image).
  { intros image.
    destruct (list_find (λ entry, entry.1 = image) entries) as [[j [k g]]|]
      eqn:Efind.
    - apply list_find_Some in Efind as (Hj & Hk & _). cbn [fst] in Hk.
      subst k. cbn. symmetry. apply Hin. by eapply list_elem_of_lookup_2.
    - cbn. symmetry. apply eq_None_not_Some. intros [g Hg].
      apply Hin in Hg. apply list_find_None in Efind.
      rewrite Forall_forall in Efind. by apply (Efind _ Hg). }
  apply map_eq. intros image. rewrite group_lookup.
  rewrite (filter_groups entries image Hnodup Hall), Hfind.
  destruct (groups !! image) as [g|] eqn:Eg; cbn [from_option id].
  - rewrite decide_True; [done|].
    destruct (Hgroup _ _ Eg) as [Hg Hne].
    destruct g as [|c g]; [done|].
    assert (Hc : c ∈ filter (λ c, Image c = image) containers)
      by (rewrite <- Hg; apply list_elem_of_here).
    apply list_elem_of_filter in Hc as [Hc _].
    apply list_elem_of_fmap. exists c. split; [done|].
    apply list_elem_of_In, in_concat. exists (c :: g). split.
    + apply list_elem_of_In, list_elem_of_fmap. exists (image, c :: g).
      split; [done|]. by apply Hin.
    + by left.
  - rewrite decide_False; [done|]. intros Himage.
    apply list_elem_of_fmap in Himage as [c [-> Hc]].
    apply list_elem_of_In, in_concat in Hc as (g & Hg & Hc).
    apply list_elem_of_In, list_elem_of_fmap in Hg as [[k g'] [-> Hkg]].
    pose proof Hkg as Hk. apply Hin, Hgroup in Hk as [Hk _].
    cbn [snd] in Hc. apply list_elem_of_In in Hc. rewrite Hk in Hc.
    apply list_elem_of_filter in Hc as [Hc _]. subst k.
    apply Hin in Hkg. congruence.
Qed.

End GroupLaws.

(** ** More on the scan orchestration *)

Section RunLaws.

Context {ContainerSummary World CisScanOutput VulnerabilityReport : Type}.

Variable Image : ContainerSummary → string.

Variable GenerateVulnerabilityReport :
  AreaReport → list (@ScannedImage ContainerSummary) →
  World → (option VulnerabilityReport * option error) * World.

Variable range :
  gmap string (list ContainerSummary) → list (string * list ContainerSummary).

Implicit Types (s : @Scanner ContainerSummary World CisScanOutput)
               (t : @Task ContainerSummary)
               (p : @Pool ContainerSummary World)
               (e : @Env ContainerSummary World)
               (image : @ScannedImage ContainerSummary)
               (imageList : gmap string (list ContainerSummary)).

(** *** The calls of a run *)















(** *** Results of a run whose appends are interrupted *)

Lemma kept_mono s res res' t r :
  omap id res ⊆+ omap id res' → kept s res t r → kept s res' t r.
Proof.
  intros Hsub. unfold kept. destruct (stage t), r; try done.
  intros (before & image & -> & Himage & Hbefore).
  exists before, image. repeat split; [done|]. by etrans.
Qed.

Lemma Forall2_insert_l {A B} (R : A → B → Prop) (l : list A) (k : list B)
    i x y :
  Forall2 R l k → k !! i = Some y → R x y → Forall2 R (<[i := x]> l) k.
Proof.
  intros Hall Hi Hxy. rewrite <- (list_insert_id k i y Hi).
  by apply Forall2_insert.
Qed.

Lemma lossy_step s i p p' res :
  lossy s p res → stepTask s i p = Some p' → ∃ res', lossy s p' res'.
Proof.
  intros [Htasks Himages Hassigned] Hstep.
  destruct (stepTask_advances _ _ _ _ Hstep) as (t & st & Ht & Hadv & Hp').
  destruct (Forall2_lookup_l _ _ _ _ _ Htasks Ht) as (r & Hr & Hkept).
  unfold kept in Hkept.
  remember (scannedImages p') as shared' eqn:Hshared in Hadv.
  destruct Hadv as [Hst|Hst|image Hst|appended Hst|Hst];
    rewrite Hst in Hkept; destruct r as [image'|]; try done.
  - exists res. split; rewrite <- ?Hshared; [|done..].
    rewrite Hp'. by apply (Forall2_insert_l _ _ _ _ _ None Htasks Hr).
  - exists res. split; rewrite <- ?Hshared; [|done..].
    rewrite Hp'. apply (Forall2_insert_l _ _ _ _ _ None Htasks Hr).
    unfold kept. cbn [withStage stage]. by exists (world (env p)).
  - exists res. split; rewrite <- ?Hshared; [|done..].
    rewrite Hp'. apply (Forall2_insert_l _ _ _ _ _ None Htasks Hr).
    unfold kept. cbn [withStage stage]. by exists (scannedImages p), image.
  - destruct Hkept as (before & image & -> & Himage & Hbefore).
    pose proof (omap_insert_new res i image Hr) as Hnew.
    exists (<[i := Some image]> res). split.
    + rewrite Hp'. apply Forall2_insert; [|done].
      eapply Forall2_impl; [exact Htasks|].
      intros t' r'. apply kept_mono. rewrite Hnew.
      by apply submseteq_inserts_r.
    + rewrite <- Hshared, Hnew. by apply submseteq_skips_r.
    + intros _. rewrite <- Hshared. by destruct before.
  - exists res. split; rewrite <- ?Hshared; [|done..].
    rewrite Hp'. by apply (Forall2_insert_l _ _ _ _ _ (Some image') Htasks Hr).
Qed.

Lemma lossy_run s schedule p p' res :
  lossy s p res → run s schedule p = Some p' → ∃ res', lossy s p' res'.
Proof.
  revert p res. induction schedule as [|i rest IH]; intros p res Hl Hrun.
  - injection Hrun as <-. by exists res.
  - cbn [run] in Hrun.
    destruct (stepTask s i p) as [p1|] eqn:Hstep; [|discriminate].
    destruct (lossy_step _ _ _ _ _ Hl Hstep) as [res1 Hl1].
    by eapply IH.
Qed.

Lemma omap_replicate_None {A} n : omap id (replicate n (@None A)) = [].
Proof. induction n; done. Qed.

Lemma lossy_submitted s imageList e :
  lossy s (submitted range s imageList e)
    (replicate (length (range imageList)) None).
Proof.
  unfold submitted. split; cbn [tasks scannedImages].
  - apply Forall2_same_length_lookup_2.
    + by rewrite length_fmap, length_replicate.
    + intros j t r Ht Hr.
      apply list_lookup_fmap_Some in Ht as (entry & -> & _).
      apply lookup_replicate in Hr as [-> _].
      destruct entry as [imageName containers]. unfold kept, submit.
      by destruct (stringReplacement _ _).
  - by rewrite omap_replicate_None.
  - by rewrite omap_replicate_None.
Qed.

Lemma kept_finished s res0 (ts : list Task) res :
  Forall2 (kept s res0) ts res →
  forallb isFinished ts = true →
  Forall2 (produced s) ts (omap id res).
Proof.
  induction 1 as [|t r ts res Hkept _ IH]; intros Hfin; [constructor|].
  cbn [forallb] in Hfin. apply andb_prop in Hfin as [Ht Hts].
  unfold isFinished in Ht. unfold kept in Hkept.
  destruct (stage t); try discriminate.
  destruct r as [image|]; [|done].
  change (omap id (Some image :: res)) with (image :: omap id res).
  constructor; auto.
Qed.

Lemma produced_entries s imageList (ts : list Task) images :
  identity <$> ts = identity <$> (submit s <$> range imageList) →
  Forall2 (produced s) ts images →
  Forall2 (λ entry image,
             ∃ w, image
                  = scanResult s
                      (resolvedName (ImageNameReplacement (config s)) entry.1)
                      entry.2 w)
          (range imageList) images.
Proof.
  intros Hid Hall.
  assert (Hall' : Forall2 (λ d image, ∃ w, image = scanResult s d.1 d.2 w)
                          (identity <$> ts) images).
  { apply Forall2_fmap_l. eapply Forall2_impl; [exact Hall|]. done. }
  rewrite Hid, <- list_fmap_compose in Hall'.
  apply Forall2_fmap_l in Hall'.
  eapply Forall2_impl; [exact Hall'|].
  intros entry image. unfold compose. by rewrite identity_submit.
Qed.

Lemma scanImages_lossy s imageList schedule e results err e' :
  scanImages range s imageList schedule e = Some ((results, err), e') →
  ∃ images,
    Forall2 (λ entry image,
               ∃ w, image
                    = scanResult s
                        (resolvedName (ImageNameReplacement (config s))
                           entry.1)
                        entry.2 w)
            (range imageList) images
    ∧ results ⊆+ images
    ∧ (length results ≤ length (range imageList))%nat
    ∧ (err = None → range imageList ≠ [] → results ≠ []).
Proof.
  intros Hscan.
  destruct (DownloadDatabase (trivyClient s) "image" (world e))
    as [[cause|] w] eqn:Hdb.
  - unfold scanImages, external in Hscan. rewrite Hdb in Hscan.
    injection Hscan as <- <- <-.
    exists ((λ entry,
               scanResult s
                 (resolvedName (ImageNameReplacement (config s)) entry.1)
                 entry.2 (world e)) <$> range imageList).
    split; [|split; [|split]].
    + apply Forall2_fmap_r, Forall_Forall2_diag, Forall_forall.
      intros entry _. by exists (world e).
    + apply submseteq_nil_l.
    + cbn [length]. lia.
    + discriminate.
  - rewrite (scanImages_downloaded _ _ _ _ _ _ Hdb) in Hscan.
    destruct (run s schedule _) as [p|] eqn:Hrun; [|discriminate].
    cbn [mbind option_bind] in Hscan.
    destruct (forallb isFinished (tasks p)) eqn:Hfin; [|discriminate].
    injection Hscan as <- <- <-.
    destruct (lossy_run s schedule _ p _
                (lossy_submitted s imageList (downloaded e w)) Hrun)
      as [res [Htasks Himages Hassigned]].
    pose proof (kept_finished _ _ _ _ Htasks Hfin) as Hall.
    pose proof (produced_entries s imageList _ _
                  (run_identity _ _ _ _ Hrun) Hall) as Hentries.
    exists (omap id res). split; [done|]. split; [done|]. split.
    + rewrite (Forall2_length _ _ _ Hentries).
      by apply submseteq_length.
    + intros _ Hne. apply Hassigned. intros Hnil.
      rewrite Hnil in Hentries. apply Forall2_nil_inv_r in Hentries. done.
Qed.


(** X19. The map of a single image: whatever the number of workers and
    the schedule, when [scanImages] returns without error it returns the
    ScannedImage of that image and nothing else: a result can only be lost
    when the map holds two images or more. *)
Theorem single_image_is_always_reported
    s imageList schedule e results e' entry :
  range imageList = [entry] →
  scanImages range s imageList schedule e = Some ((results, None), e') →
  ∃ w,
    results
    = [scanResult s
         (resolvedName (ImageNameReplacement (config s)) entry.1)
         entry.2 w].
Proof.
  intros Hrange Hscan.
  destruct (scanImages_lossy _ _ _ _ _ _ _ Hscan)
    as (images & Hall & Hsub & Hlength & Hsome).
  rewrite Hrange in Hall, Hlength, Hsome.
  apply Forall2_cons_inv_l in Hall as (image & rest & [w ->] & Hrest & ->).
  apply Forall2_nil_inv_l in Hrest as ->.
  exists w. specialize (Hsome eq_refl ltac:(done)).
  destruct results as [|image [|image' results]]; [done| |cbn in Hlength; lia].
  f_equal. assert (Hin : image ∈ [image]) by apply list_elem_of_here.
  apply (elem_of_submseteq _ _ _ Hin) in Hsub.
  by apply list_elem_of_singleton in Hsub.
Qed.

(** *** One worker *)

Lemma omap_insert_last {A} (res : list (option A)) i x :
  res !! i = Some None →
  (∀ k r, (i < k)%nat → res !! k = Some r → r = None) →
  omap id (<[i := Some x]> res) = omap id res ++ [x].
Proof.
  revert i. induction res as [|a res IH]; intros [|i] Hi Hlater; try done.
  - injection Hi as ->.
    change (<[0 := Some x]> (None :: res)) with (Some x :: res).
    change (omap id (Some x :: res)) with (x :: omap id res).
    change (omap id (None :: res)) with (omap id res).
    assert (Hnone : omap id res = []).
    { clear -Hlater. induction res as [|b res IH]; [done|].
      rewrite (Hlater 1%nat b) by (done || lia).
      change (omap id (None :: res)) with (omap id res).
      apply IH. intros k r Hk Hr. apply (Hlater (S k)); [lia|].
      destruct k; [lia|]. exact Hr. }
    by rewrite Hnone.
  - change (<[S i := Some x]> (a :: res)) with (a :: <[i := Some x]> res).
    assert (Hrest : omap id (<[i := Some x]> res) = omap id res ++ [x]).
    { apply IH; [exact Hi|]. intros k r Hk. apply (Hlater (S k)). lia. }
    destruct a as [y|].
    + change (omap id (Some y :: ?l)) with (y :: omap id l).
      by rewrite Hrest.
    + change (omap id (None :: ?l)) with (omap id l). exact Hrest.
Qed.

Lemma advances_unfinished s p t st images :
  advances s p t st images → isFinished t = false.
Proof. unfold isFinished. destruct 1 as [H|H|? H|? H|H]; by rewrite H. Qed.

Lemma sequential_step s i p p' res :
  maxWorkers s = 1%Z →
  sequential s p res →
  stepTask s i p = Some p' →
  ∃ res', sequential s p' res'.
Proof.
  intros Hone [Htasks Himages Horder Hworkers] Hstep.
  destruct (stepTask_advances _ _ _ _ Hstep) as (t & st & Ht & Hadv & Hp').
  destruct (Forall2_lookup_l _ _ _ _ _ Htasks Ht) as (r & Hr & Hacc).
  pose proof (advances_unfinished _ _ _ _ _ Hadv) as Hunfinished.
  assert (Hlater : ∀ k t', (i < k)%nat → tasks p !! k = Some t' →
                           isQueued t' = true).
  { intros k t' Hk Ht'. destruct (isQueued t') eqn:Hq; [done|].
    rewrite (Horder i k t t' Hk Ht Ht' Hq) in Hunfinished. discriminate. }
  assert (Hearlier : ∀ j t', (j < i)%nat → tasks p !! j = Some t' →
                             isFinished t' = true).
  { intros j t' Hj Ht'. destruct (isQueued t) eqn:Hq.
    - assert (Hst : stage t = Queued)
        by (unfold isQueued in Hq; by destruct (stage t)).
      pose proof (stepTask_canStart _ _ _ _ _ Hstep Ht Hst) as Hstart.
      pose proof (canStart_free _ _ _ Hstart) as Hfree.
      unfold canStart in Hstart. apply andb_prop in Hstart as [_ Hstarted].
      rewrite forallb_forall in Hstarted.
      assert (Hin : In t' (take i (tasks p))).
      { apply list_elem_of_In, list_elem_of_lookup. exists j.
        by rewrite lookup_take_lt. }
      specialize (Hstarted t' Hin).
      destruct (isFinished t') eqn:Hf; [done|]. exfalso.
      assert (Hrun : isRunning t' = true)
        by (unfold isRunning; rewrite Hf; by destruct (isQueued t')).
      pose proof (filter_length_lookup (λ t, isRunning t = true) _ _ _
                    Ht' Hrun) as Hbusy.
      unfold runningCount in Hfree. lia.
    - exact (Horder j i t' t Hj Ht' Ht Hq). }
  assert (Hothers : ∀ j t', tasks p !! j = Some t' → j ≠ i →
                            isLoaded t' = false).
  { intros j t' Ht' Hne. unfold isLoaded.
    destruct (Nat.lt_total j i) as [Hlt|[->|Hgt]]; [|done|].
    - specialize (Hearlier j t' Hlt Ht'). unfold isFinished in Hearlier.
      by destruct (stage t').
    - specialize (Hlater j t' Hgt Ht'). unfold isQueued in Hlater.
      by destruct (stage t'). }
  assert (Horder' : ∀ j k tj tk,
             (j < k)%nat → tasks p' !! j = Some tj → tasks p' !! k = Some tk →
             isQueued tk = false → isFinished tj = true).
  { intros j k tj tk Hjk Hj Hk Hq. rewrite Hp' in Hj, Hk.
    destruct (decide (k = i)) as [->|Hki].
    - rewrite list_lookup_insert_ne in Hj by lia. by eapply Hearlier.
    - rewrite list_lookup_insert_ne in Hk by done.
      destruct (Nat.lt_total k i) as [Hlt|[->|Hgt]]; [|done|].
      + rewrite list_lookup_insert_ne in Hj by lia.
        apply (Hearlier j tj); [lia | done].
      + rewrite (Hlater k tk Hgt Hk) in Hq. discriminate. }
  assert (Hworkers' : (runningCount p' ≤ 1)%nat).
  { pose proof (stepTask_within_workers _ _ _ _ Hstep) as Hw. lia. }
  unfold accounted in Hacc.
  remember (scannedImages p') as shared' eqn:Hshared in Hadv.
  destruct Hadv as [Hst|Hst|image Hst|appended Hst|Hst];
    rewrite Hst in Hacc; destruct r as [image'|]; try done.
  - exists (<[i := None]> res). split; [| |done..].
    + rewrite Hp', <- Hshared. by eapply accounted_insert.
    + by rewrite <- Hshared, list_insert_id.
  - exists (<[i := None]> res). split; [| |done..].
    + rewrite Hp', <- Hshared. eapply accounted_insert; [done..|].
      unfold accounted. cbn. eauto.
    + by rewrite <- Hshared, list_insert_id.
  - destruct Hacc as [w ->].
    exists (<[i := None]> res). split; [| |done..].
    + rewrite Hp', <- Hshared. eapply accounted_insert; [done..|].
      unfold accounted. cbn. eauto.
    + by rewrite <- Hshared, list_insert_id.
  - destruct Hacc as [w ->].
    exists (<[i := Some (scanResult s (resolvedImageName t)
                           (resolvedContainers t) w)]> res).
    split; [| |done..].
    + rewrite Hp'. eapply accounted_insert; [done..|].
      unfold accounted. cbn. eauto.
    + rewrite <- Hshared, Himages. symmetry.
      apply omap_insert_last; [done|].
      intros k r' Hk Hr'.
      destruct (Forall2_lookup_r _ _ _ _ _ Htasks Hr') as (t' & Ht' & Hacc').
      specialize (Hlater k t' Hk Ht'). unfold isQueued in Hlater.
      unfold accounted in Hacc'.
      destruct (stage t'); try discriminate. by destruct r'.
  - exists (<[i := Some image']> res). split; [| |done..].
    + rewrite Hp', <- Hshared. by eapply accounted_insert.
    + by rewrite <- Hshared, list_insert_id.
Qed.

Lemma sequential_run s schedule p p' res :
  maxWorkers s = 1%Z →
  sequential s p res →
  run s schedule p = Some p' →
  ∃ res', sequential s p' res'.
Proof.
  intros Hone. revert p res.
  induction schedule as [|i rest IH]; intros p res Hseq Hrun.
  - injection Hrun as <-. by exists res.
  - cbn [run] in Hrun.
    destruct (stepTask s i p) as [p1|] eqn:Hstep; [|discriminate].
    destruct (sequential_step _ _ _ _ _ Hone Hseq Hstep) as [res1 Hseq1].
    by eapply IH.
Qed.

Lemma sequential_submitted s imageList e :
  sequential s (submitted range s imageList e)
    (replicate (length (range imageList)) None).
Proof.
  split.
  - apply (consistent_tasks _ _ None _
             (consistent_submitted range s imageList e None)).
  - cbn [submitted scannedImages]. by rewrite omap_replicate_None.
  - intros j k t t' _ _ Ht' Hq. exfalso.
    cbn [submitted tasks] in Ht'.
    apply list_lookup_fmap_Some in Ht' as (entry & -> & _).
    destruct entry as [imageName containers]. unfold isQueued, submit in Hq.
    by destruct (stringReplacement _ _).
  - unfold runningCount, submitted. cbn [tasks].
    rewrite filter_none; [simpl; lia|].
    apply Forall_fmap, Forall_forall. intros [imageName containers] _.
    unfold compose, submit, isRunning, isQueued.
    by destruct (stringReplacement _ _).
Qed.

(** With at most one worker configured, [scanImages] returns the
    ScannedImages in the order in which their functions were submitted. *)
Lemma single_worker_in_order s imageList schedule e results e' :
  (Workers (config s) ≤ 1)%Z →
  scanImages range s imageList schedule e = Some ((results, None), e') →
  Forall2 (λ entry image,
             ∃ w, image
                  = scanResult s
                      (resolvedName (ImageNameReplacement (config s)) entry.1)
                      entry.2 w)
          (range imageList) results.
Proof.
  intros Hone Hscan.
  destruct (DownloadDatabase (trivyClient s) "image" (world e))
    as [[cause|] w] eqn:Hdb.
  { unfold scanImages, external in Hscan. rewrite Hdb in Hscan. done. }
  rewrite (scanImages_downloaded _ _ _ _ _ _ Hdb) in Hscan.
  destruct (run s schedule _) as [p|] eqn:Hrun; [|discriminate].
  cbn [mbind option_bind] in Hscan.
  destruct (forallb isFinished (tasks p)) eqn:Hfin; [|discriminate].
  injection Hscan as <- <-.
  assert (Hmax : maxWorkers s = 1%Z) by (unfold maxWorkers; lia).
  destruct (sequential_run s schedule _ p _ Hmax
              (sequential_submitted s imageList (downloaded e w)) Hrun)
    as [res [Htasks Himages _ _]].
  rewrite Himages.
  apply (produced_entries s imageList (tasks p));
    [exact (run_identity _ _ _ _ Hrun)|].
  exact (consistent_finished s _ _ _ Htasks Hfin).
Qed.

(** X20. With at most one worker configured (a number below one counts as
    one), no result is lost and the results keep the order of submission:
    whenever [scanImages] returns without error, it returns one
    ScannedImage for every entry of the map, the one the function
    submitted for that entry constructed, in the order in which the loop
    over the map visited the entries. *)
Theorem one_worker_returns_every_result s imageList schedule e results e' :
  (Workers (config s) ≤ 1)%Z →
  scanImages range s imageList schedule e = Some ((results, None), e') →
  length results = length (range imageList)
  ∧ Forall2 (λ entry image,
               ∃ w, image
                    = scanResult s
                        (resolvedName (ImageNameReplacement (config s))
                           entry.1)
                        entry.2 w)
            (range imageList) results.
Proof.
  intros Hone Hscan.
  pose proof (single_worker_in_order _ _ _ _ _ _ Hone Hscan) as Hall.
  split; [|exact Hall]. symmetry. by eapply Forall2_length.
Qed.

(** *** More workers *)

Lemma stepTask_more_workers s i p p' :
  stepTask (singleWorker s) i p = Some p' → stepTask s i p = Some p'.
Proof.
  unfold stepTask. destruct (tasks p !! i) as [t|]; [|done].
  cbn [mbind option_bind]. destruct (stage t); try done.
  assert (Hstart : canStart (singleWorker s) i p = true →
                   canStart s i p = true).
  { unfold canStart, maxWorkers. cbn [singleWorker config Workers].
    intros H. apply andb_prop in H as [Hfree Hfirst].
    apply andb_true_intro. split; [|done].
    apply Z.ltb_lt in Hfree. apply Z.ltb_lt. lia. }
  destruct (canStart (singleWorker s) i p); [|done].
  by rewrite Hstart.
Qed.

Lemma run_more_workers s schedule p p' :
  run (singleWorker s) schedule p = Some p' → run s schedule p = Some p'.
Proof.
  revert p. induction schedule as [|i rest IH]; intros p; [done|].
  cbn [run].
  destruct (stepTask (singleWorker s) i p) as [p1|] eqn:Hstep; [|done].
  rewrite (stepTask_more_workers _ _ _ _ Hstep). apply IH.
Qed.

(** X21. Whatever the number of workers, the scan can come to a good end:
    when the download of the vulnerability database succeeds there is a
    schedule under which [scanImages] returns, without error, one
    ScannedImage for every entry of the map, in the order of the entries
    (the schedule of one worker is one). *)
Theorem some_run_returns_every_result s imageList e w :
  DownloadDatabase (trivyClient s) "image" (world e) = (None, w) →
  ∃ schedule results e',
    scanImages range s imageList schedule e = Some ((results, None), e')
    ∧ Forall2 (λ entry image,
                 ∃ w', image
                       = scanResult s
                           (resolvedName (ImageNameReplacement (config s))
                              entry.1)
                           entry.2 w')
              (range imageList) results.
Proof.
  intros Hdb.
  destruct (pool_completes (singleWorker s)
              (submitted range (singleWorker s) imageList (downloaded e w)))
    as (schedule & p & Hrun & Hfin).
  assert (Hone : scanImages range (singleWorker s) imageList schedule e
                 = Some ((scannedImages p, None), env p)).
  { rewrite (scanImages_downloaded range (singleWorker s) _ _ _ w Hdb).
    rewrite Hrun. cbn [mbind option_bind]. by rewrite Hfin. }
  exists schedule, (scannedImages p), (env p). split.
  - rewrite (scanImages_downloaded range s _ _ _ w Hdb).
    change (submitted range s imageList (downloaded e w))
      with (submitted range (singleWorker s) imageList (downloaded e w)).
    rewrite (run_more_workers s schedule _ p Hrun).
    cbn [mbind option_bind]. by rewrite Hfin.
  - apply (single_worker_in_order (singleWorker s) imageList schedule e
             (scannedImages p) (env p)); [cbn; lia | exact Hone].
Qed.

(** *** Errors of the image store *)



(** *** The entry point *)

Lemma scanResult_fields s name containers w :
  ImageName (scanResult s name containers w) = name
  ∧ Containers (scanResult s name containers w) = containers
  ∧ ContainerCount (VulnerabilitySummary_ (scanResult s name containers w))
    = Z.of_nat (length containers).
Proof.
  unfold scanResult.
  by destruct (ScanImage (trivyClient s) name w) as [[trivyOutput err] w'].
Qed.

(** X23. With at most one worker configured, when the list of the
    containers can be fetched and the scan of its images returns,
    [ScanImages] returns what the report aggregator makes of the results,
    and the results hold one ScannedImage for every image that occurs in
    the list: for every container of the list the one of its image, under
    the resolved name of the image, with all containers of the list that
    run this image, in the order of the list, and their number as
    ContainerCount. *)
Theorem ScanImages_reports_every_image
    s schedule e containers w results e1 :
  let groups := groupContainersByImageName Image containers in
  let rules := ImageNameReplacement (config s) in
  (Workers (config s) ≤ 1)%Z →
  range groups ≡ₚ map_to_list groups →
  GetContainersInNamespaces (kubernetesClient s) (FilterLabels (config s))
    (world e) = ((containers, None), w) →
  scanImages range s groups schedule (listed (FilterLabels (config s)) e w)
  = Some ((results, None), e1) →
  ScanImages Image GenerateVulnerabilityReport range s schedule e
  = Some (external
            (GenerateVulnerabilityReportCall (reportGeneratorOf s) results)
            (GenerateVulnerabilityReport (reportGeneratorOf s) results) e1)
  ∧ length results = size groups
  ∧ ∀ container,
      container ∈ containers →
      ∃ scanned,
        scanned ∈ results
        ∧ ImageName scanned = resolvedName rules (Image container)
        ∧ Containers scanned
          = filter (λ c, Image c = Image container) containers
        ∧ container ∈ Containers scanned
        ∧ ContainerCount (VulnerabilitySummary_ scanned)
          = Z.of_nat (length (filter (λ c, Image c = Image container)
                                containers)).
Proof.
  intros groups rules Hone Hrange Hlist Hscan.
  pose proof (single_worker_in_order _ _ _ _ _ _ Hone Hscan) as Hall.
  split; [|split].
  - unfold ScanImages, external at 1. rewrite Hlist.
    fold groups. unfold listed in Hscan. rewrite Hscan. done.
  - rewrite <- (Forall2_length _ _ _ Hall), Hrange.
    apply length_map_to_list.
  - intros container Hin.
    set (group := filter (λ c, Image c = Image container) containers).
    assert (Hgroup : groups !! Image container = Some group).
    { unfold groups. rewrite group_lookup, decide_True; [done|].
      apply list_elem_of_fmap. eauto. }
    assert (Hentry : (Image container, group) ∈ range groups)
      by (by rewrite Hrange; apply elem_of_map_to_list).
    apply list_elem_of_lookup in Hentry as [k Hk].
    destruct (Forall2_lookup_l _ _ _ _ _ Hall Hk)
      as (scanned & Hscanned & w' & ->).
    cbn [fst snd].
    destruct (scanResult_fields s (resolvedName rules (Image container))
                group w') as (Hname & Hcontainers & Hcount).
    eexists. split; [|split; [|split; [|split]]];
      [|exact Hname|exact Hcontainers| |exact Hcount].
    + by eapply list_elem_of_lookup_2.
    + rewrite Hcontainers. by apply list_elem_of_filter.
Qed.

(** X24. [ScanImages] returns an error in three cases only: when the list
    of the containers cannot be fetched (the error is passed on as it is
    and nothing else is called), when the download of the vulnerability
    database fails (no report is generated), and when the report
    aggregator returns one. No failed pull, scan or removal and no
    malformed rule string makes it return an error. *)
Theorem ScanImages_fails_for_three_reasons_only
    s schedule e report err e' :
  ScanImages Image GenerateVulnerabilityReport range s schedule e
  = Some ((report, Some err), e') →
  let filterLabels := FilterLabels (config s) in
  let listing :=
    GetContainersInNamespaces (kubernetesClient s) filterLabels (world e) in
  let e0 := listed filterLabels e listing.2 in
  let groups := groupContainersByImageName Image listing.1.1 in
  (listing.1.2 = Some err ∧ report = None ∧ e' = e0)
  ∨ (listing.1.2 = None
     ∧ ∃ cause,
         (DownloadDatabase (trivyClient s) "image" (world e0)).1 = Some cause
         ∧ err = "failed to download trivy db: " +:+ cause
         ∧ report = None
         ∧ e' = downloaded e0
                  (DownloadDatabase (trivyClient s) "image" (world e0)).2)
  ∨ (listing.1.2 = None
     ∧ ∃ results e1,
         scanImages range s groups schedule e0 = Some ((results, None), e1)
         ∧ GenerateVulnerabilityReport (reportGeneratorOf s) results (world e1)
           = ((report, Some err), world e')
         ∧ calls e'
           = calls e1
             ++ [GenerateVulnerabilityReportCall (reportGeneratorOf s)
                   results]).
Proof.
  intros Hscan. cbn zeta. unfold ScanImages, external at 1 in Hscan.
  unfold listed.
  destruct (GetContainersInNamespaces _ _ _) as [[containers [listErr|]] w].
  - injection Hscan as <- <- <-. by left.
  - right. cbn [fst snd] in *.
    destruct (scanImages range s _ schedule _)
      as [[[results [scanErr|]] e1]|] eqn:Hresults;
      cbn [mbind option_bind] in Hscan; [| |discriminate].
    + injection Hscan as <- <- <-. left. split; [done|].
      unfold scanImages, external in Hresults. cbn [world calls] in Hresults.
      destruct (DownloadDatabase _ _ _) as [[cause|] w'].
      * injection Hresults as <- <- <-. exists cause. done.
      * destruct (run _ _ _) as [p|]; [|discriminate].
        cbn [mbind option_bind] in Hresults.
        by destruct (forallb isFinished (tasks p)).
    + right. split; [done|]. exists results, e1. split; [done|].
      unfold external in Hscan.
      destruct (GenerateVulnerabilityReport _ _ _) as [answer w'].
      by injection Hscan as -> <-.
Qed.

(** X25. A cluster without containers: the vulnerability database is
    downloaded all the same, nothing is pulled, scanned or removed, and
    the report is generated from no images. *)
Theorem ScanImages_without_containers s e w w' :
  range ∅ = [] →
  GetContainersInNamespaces (kubernetesClient s) (FilterLabels (config s))
    (world e) = (([], None), w) →
  DownloadDatabase (trivyClient s) "image" w = (None, w') →
  ScanImages Image GenerateVulnerabilityReport range s [] e
  = Some (external
            (GenerateVulnerabilityReportCall (reportGeneratorOf s) [])
            (GenerateVulnerabilityReport (reportGeneratorOf s) [])
            {| world := w';
               calls := calls e
                        ++ [GetContainersInNamespacesCall
                              (FilterLabels (config s));
                            DownloadDatabaseCall "image"] |}).
Proof.
  intros Hrange Hlist Hdb.
  assert (Hscan : scanImages range s ∅ []
                    (listed (FilterLabels (config s)) e w)
                  = Some (([], None),
                          downloaded (listed (FilterLabels (config s)) e w)
                            w')).
  { rewrite (scanImages_downloaded range s ∅ []
               (listed (FilterLabels (config s)) e w) w' Hdb).
    unfold submitted. by rewrite Hrange. }
  unfold ScanImages, external at 1. rewrite Hlist.
  change (groupContainersByImageName Image []) with
    (∅ : gmap string (list ContainerSummary)).
  unfold listed in Hscan. rewrite Hscan.
  unfold downloaded. cbn [mbind option_bind world calls].
  by rewrite <- app_assoc.
Qed.

End RunLaws.

(** ** The properties on the example cluster *)

Section Examples.

Import Example.

(** C1: the claim as stated fails. After the rule "a|b" has rewritten the
    name, the malformed entry "c" makes the resolver return the rewritten
    name "b", not the original "a"; and an entry with an empty part, such as
    "registry/|", is accepted and applied without any error. *)
Lemma stringReplacement_returns_rewritten_name :
  stringReplacement "a" "a|b,c" = ("b", Some formatError)
  ∧ (stringReplacement "a" "a|b,c").1 ≠ "a"
  ∧ stringReplacement "registry/app" "registry/|" = ("app", None).
Proof. by vm_compute. Qed.

Lemma malformed_rule_gives_format_error_witness :
  stringReplacement "registry/app" "x|y,c" = ("registry/app", Some formatError)
  ∧ submit (scanner 2 "x|y,c" None)
      ("registry/app", [{| ContainerName := "web"; ContainerImage := "registry/app" |}])
    = {| resolvedImageName := "registry/app";
         resolvedContainers :=
           [{| ContainerName := "web"; ContainerImage := "registry/app" |}];
         stage := Queued |}.
Proof.
  apply (malformed_rule_gives_format_error (scanner 2 "x|y,c" None)
           "registry/app" _ ["x|y"] "c" [] [("x", "y")]).
  - reflexivity.
  - repeat constructor.
  - reflexivity.
  - reflexivity.
Defined.

(** C3: the claim as stated fails. One finding of the unrecognized severity
    "NEGLIGIBLE" gives a histogram of six keys. *)
Lemma histogram_with_six_keys :
  let histogram :=
    TotalVulnerabilityBySeverity
      (buildVulnerabilitySummary (scanned ["NEGLIGIBLE"])) in
  size histogram = 6 ∧ histogram !! "NEGLIGIBLE" = Some 1%Z.
Proof. by vm_compute. Qed.

(** C4: the claim as stated fails. One hundred HIGH findings score as much
    as one CRITICAL finding. *)
Lemma hundred_high_equal_one_critical :
  SeverityScore (buildVulnerabilitySummary (scanned ["CRITICAL"]))
  = SeverityScore (buildVulnerabilitySummary (scanned (replicate 100 "HIGH")))
  ∧ ¬ (SeverityScore
         (buildVulnerabilitySummary (scanned (replicate 100 "HIGH")))
       < SeverityScore (buildVulnerabilitySummary (scanned ["CRITICAL"])))%Z.
Proof. by vm_compute. Qed.

Lemma critical_outweighs_up_to_99_lower_witness :
  (SeverityScore (buildVulnerabilitySummary (scanned (replicate 99 "HIGH")))
   < SeverityScore (buildVulnerabilitySummary (scanned ["LOW"; "CRITICAL"])))%Z.
Proof.
  apply (critical_outweighs_up_to_99_lower
           (scanned ["LOW"; "CRITICAL"]) (scanned (replicate 99 "HIGH"))).
  - vm_compute. apply list_elem_of_further, list_elem_of_here.
  - by vm_compute.
  - vm_compute. repeat constructor.
  - vm_compute. lia.
Defined.

Lemma rules_apply_cumulatively_in_order_witness :
  stringReplacement "quay.io/team/app:1" "quay.io|mirror.local,team/|"
  = ("mirror.local/app:1", None).
Proof.
  apply (rules_apply_cumulatively_in_order
           "quay.io/team/app:1" "quay.io|mirror.local,team/|"
           [("quay.io", "mirror.local"); ("team/", "")]).
  repeat constructor.
Defined.

Lemma unrecognized_severity_counted_not_scored_witness :
  TotalVulnerabilityBySeverity
    (buildVulnerabilitySummary (scanned ["NEGLIGIBLE"; "HIGH"; "NEGLIGIBLE"]))
    !! "NEGLIGIBLE"
  = Some (wrap 2)
  ∧ SeverityScore
      (buildVulnerabilitySummary (scanned ["NEGLIGIBLE"; "HIGH"; "NEGLIGIBLE"]))
    = SeverityScore (buildVulnerabilitySummary (scanned ["HIGH"])).
Proof.
  destruct (unrecognized_severity_counted_not_scored
              (scanned ["NEGLIGIBLE"; "HIGH"; "NEGLIGIBLE"])
              (scanned ["HIGH"]) "NEGLIGIBLE")
    as (Hcount & _ & _ & _ & Hscore).
  - vm_compute. apply list_elem_of_here.
  - vm_compute. intros H.
    repeat (apply elem_of_cons in H as [H|H]; [discriminate|]).
    by apply elem_of_nil in H.
  - reflexivity.
  - split; [exact Hcount | exact Hscore].
Defined.

(** C2: the code breaks the claim. Nothing guards the append to
    [scannedImages]: with two workers, both submitted functions can evaluate
    [append(scannedImages, ...)] on the empty slice before either assigns
    its result, and the ScannedImage of image "a" is lost: the run returns
    one result for two images. *)
Theorem unguarded_append_loses_a_result :
  size images = 2
  ∧ ∃ e',
      scanImages map_to_list (scanner 2 "" None) images overlapping start
      = Some (([NewScannedImage "broken"
                  [{| ContainerName := "db"; ContainerImage := "broken" |}] []
                  (Some "error executing trivy for image broken: timeout")],
               None), e').
Proof. split; [by vm_compute|]. eexists. by vm_compute. Qed.


(** C9: the claim as stated fails. The error returned for the benchmark
    "k8s-cis" does not name the benchmark; and for the benchmark "k8s-nsa",
    where the engine answers "12 checks passed", the report aggregator is
    called with no images at all. *)
Lemma CisScan_error_without_benchmark_report_without_output :
  (CisScan report (scanner 2 "" None) "k8s-cis" start).1
  = (None, Some "error executing trivy cluster scan: boom")
  ∧ strings.Contains "error executing trivy cluster scan: boom" "k8s-cis"
    = false
  ∧ (CisScan_ (trivy None) "k8s-nsa" []).1 = ("12 checks passed", None)
  ∧ calls (CisScan report (scanner 2 "" None) "k8s-nsa" start).2
    = [CisScanCall "k8s-nsa";
       GenerateVulnerabilityReportCall
         {| AreaLabelName := "area"; TeamLabelName := "team" |} []].
Proof. by vm_compute. Qed.

(** The scenario of the specification: two containers on image "a", whose
    scan finds one CRITICAL vulnerability, and one container on a second
    image; one function after the other. *)
Example end_to_end_scenario :
  match scanImages map_to_list (scanner 2 "" None) images oneByOne start with
  | Some ((results, err), _) =>
      (err,
       map (λ image, (ImageName image,
                      ContainerCount (VulnerabilitySummary_ image),
                      SeverityScore (VulnerabilitySummary_ image)))
           results)
      = (None, [("a", 2%Z, 100000000%Z); ("broken", 1%Z, 0%Z)])
  | None => False
  end.
Proof. by vm_compute. Qed.


(** *** Instances of the further properties *)

Lemma written_rules_are_read_back_witness :
  entriesOf (encodeRules [("quay.io", "mirror.local"); ("team/", "")])
  = ["quay.io|mirror.local"; "team/|"]
  ∧ stringReplacement "quay.io/team/app:1"
      (encodeRules [("quay.io", "mirror.local"); ("team/", "")])
    = ("mirror.local/app:1", None).
Proof.
  destruct (written_rules_are_read_back "quay.io/team/app:1"
              [("quay.io", "mirror.local"); ("team/", "")])
    as (Hentries & _ & Hname).
  - repeat constructor.
  - split; [exact Hentries | exact Hname].
Defined.

Lemma rules_without_occurrence_keep_name_witness :
  stringReplacement "registry/app:1" "quay.io|mirror.local,app|app"
  = ("registry/app:1", None).
Proof.
  apply (rules_without_occurrence_keep_name "registry/app:1"
           "quay.io|mirror.local,app|app"
           [("quay.io", "mirror.local"); ("app", "app")]).
  - repeat constructor.
  - constructor; [right; split; [discriminate | reflexivity]|].
    constructor; [left; reflexivity | constructor].
Defined.

Lemma empty_match_string_is_applied_at_every_byte_witness :
  stringReplacement "abc" "|-" = ("-a-b-c-", None).
Proof.
  apply (empty_match_string_is_applied_at_every_byte "abc" "-").
  - discriminate.
  - split; reflexivity.
  - reflexivity.
Defined.

Lemma summary_independent_of_map_order_witness :
  let i := scanned ["HIGH"; "LOW"; "HIGH"] in
  let keys := reverse (map_to_list severityScores) in
  let severityMap :=
    foldl countTarget (zeroCounts keys) (TrivyOutputResults_ i) in
  {| ContainerCount := Z.of_nat (length (Containers i));
     SeverityScore := sumScores (reverse (map_to_list severityMap));
     TotalVulnerabilityBySeverity := severityMap |}
  = buildVulnerabilitySummary i.
Proof.
  apply (summary_independent_of_map_order
           (scanned ["HIGH"; "LOW"; "HIGH"])
           (reverse (map_to_list severityScores))).
  - apply reverse_Permutation.
  - apply reverse_Permutation.
Defined.

Lemma score_is_weighted_count_witness :
  SeverityScore
    (buildVulnerabilitySummary (scanned ["CRITICAL"; "LOW"; "CRITICAL"]))
  = 200000100%Z.
Proof.
  destruct (score_is_weighted_count (scanned ["CRITICAL"; "LOW"; "CRITICAL"]))
    as [_ Hexact].
  apply Hexact. by vm_compute.
Defined.

Lemma summary_of_joined_scans_witness :
  SeverityScore
    (buildVulnerabilitySummary
       (NewScannedImage "image" ([] : list Container)
          (findings ["HIGH"] ++ findings ["LOW"; "HIGH"]) None))
  = int_add (SeverityScore (buildVulnerabilitySummary (scanned ["HIGH"])))
            (SeverityScore
               (buildVulnerabilitySummary (scanned ["LOW"; "HIGH"]))).
Proof.
  destruct (summary_of_joined_scans
              (scanned ["HIGH"]) (scanned ["LOW"; "HIGH"])
              (NewScannedImage "image" []
                 (findings ["HIGH"] ++ findings ["LOW"; "HIGH"]) None))
    as [Hscore _]; [reflexivity | exact Hscore].
Defined.

Lemma summary_depends_on_severities_only_witness :
  SeverityScore (buildVulnerabilitySummary (scanned ["HIGH"; "LOW"]))
  = SeverityScore
      (buildVulnerabilitySummary
         (NewScannedImage "other" ([] : list Container)
            (findings ["LOW"] ++ findings ["HIGH"]) None)).
Proof.
  destruct (summary_depends_on_severities_only (scanned ["HIGH"; "LOW"])
              (NewScannedImage "other" []
                 (findings ["LOW"] ++ findings ["HIGH"]) None))
    as [_ Hscore]; [apply perm_swap | exact Hscore].
Defined.

Lemma counts_can_be_read_off_the_score_witness :
  let score :=
    SeverityScore
      (buildVulnerabilitySummary
         (scanned ["HIGH"; "CRITICAL"; "LOW"; "HIGH"; "CRITICAL"; "HIGH"])) in
  (score / 100000000 = 2 ∧ score / 1000000 mod 100 = 3
   ∧ score / 10000 mod 100 = 0 ∧ score / 100 mod 100 = 1
   ∧ score mod 100 = 0)%Z.
Proof.
  apply (counts_can_be_read_off_the_score
           (scanned ["HIGH"; "CRITICAL"; "LOW"; "HIGH"; "CRITICAL"; "HIGH"]));
    by vm_compute.
Defined.

Lemma score_zero_iff_no_known_severity_witness :
  SeverityScore
    (buildVulnerabilitySummary (scanned ["NEGLIGIBLE"; "high"])) = 0%Z.
Proof.
  destruct (score_zero_iff_no_known_severity
              (scanned ["NEGLIGIBLE"; "high"])) as [_ [_ Hzero]].
  - by vm_compute.
  - apply Hzero.
    repeat constructor; intros H;
      repeat (apply elem_of_cons in H as [H|H]; [discriminate|]);
      by apply elem_of_nil in H.
Defined.

Lemma histogram_counts_every_finding_once_witness :
  countSum
    (TotalVulnerabilityBySeverity
       (buildVulnerabilitySummary (scanned ["HIGH"; "odd"; "HIGH"])))
  = 3%Z.
Proof.
  destruct (histogram_counts_every_finding_once
              (scanned ["HIGH"; "odd"; "HIGH"])) as [Hsum _];
    [by vm_compute | exact Hsum].
Defined.

Lemma grouping_the_groups_again_witness :
  groupContainersByImageName ContainerImage
    (concat (reverse (map_to_list images)).*2)
  = images.
Proof.
  apply (grouping_the_groups_again ContainerImage cluster
           (reverse (map_to_list images))).
  apply reverse_Permutation.
Defined.




Lemma single_image_is_always_reported_witness :
  ∃ results e',
    scanImages map_to_list (scanner 2 "" None) lonely [0; 0; 0; 0; 0] start
    = Some ((results, None), e')
    ∧ ∃ w,
        results
        = [scanResult (scanner 2 "" None) "a"
             [{| ContainerName := "web-1"; ContainerImage := "a" |}] w].
Proof.
  destruct (scanImages map_to_list (scanner 2 "" None) lonely [0; 0; 0; 0; 0]
              start)
    as [[[results [err|]] e']|] eqn:Hscan;
    [by vm_compute in Hscan| |by vm_compute in Hscan].
  exists results, e'. split; [reflexivity|].
  apply (single_image_is_always_reported map_to_list (scanner 2 "" None)
           lonely [0; 0; 0; 0; 0] start results e'
           ("a", [{| ContainerName := "web-1"; ContainerImage := "a" |}]));
    [reflexivity | exact Hscan].
Defined.

Lemma some_run_returns_every_result_witness :
  ∃ schedule results e',
    scanImages map_to_list (scanner 2 "" None) images schedule start
    = Some ((results, None), e')
    ∧ length results = 2.
Proof.
  destruct (some_run_returns_every_result map_to_list (scanner 2 "" None)
              images start [] eq_refl)
    as (schedule & results & e' & Hscan & Hall).
  exists schedule, results, e'. split; [exact Hscan|].
  by rewrite <- (Forall2_length _ _ _ Hall).
Defined.

Lemma one_worker_returns_every_result_witness :
  ∃ results e',
    scanImages map_to_list (scanner 1 "" None) images oneByOne start
    = Some ((results, None), e')
    ∧ length results = length (map_to_list images).
Proof.
  destruct (scanImages map_to_list (scanner 1 "" None) images oneByOne start)
    as [[[results [err|]] e']|] eqn:Hscan;
    [by vm_compute in Hscan| |by vm_compute in Hscan].
  exists results, e'. split; [reflexivity|].
  apply (one_worker_returns_every_result map_to_list (scanner 1 "" None)
           images oneByOne start results e'); [by vm_compute | exact Hscan].
Defined.


Lemma ScanImages_reports_every_image_witness :
  ∃ results e1,
    ScanImages ContainerImage report map_to_list (scanner 1 "" None) oneByOne
      start
    = Some (external
              (GenerateVulnerabilityReportCall
                 (reportGeneratorOf (scanner 1 "" None)) results)
              (report (reportGeneratorOf (scanner 1 "" None)) results) e1)
    ∧ length results = size images.
Proof.
  destruct (scanImages map_to_list (scanner 1 "" None) images oneByOne
              (listed "" start []))
    as [[[results [err|]] e1]|] eqn:Hscan;
    [by vm_compute in Hscan| |by vm_compute in Hscan].
  exists results, e1.
  destruct (ScanImages_reports_every_image ContainerImage report map_to_list
              (scanner 1 "" None) oneByOne start cluster [] results e1)
    as (Hreport & Hlength & _).
  - by vm_compute.
  - reflexivity.
  - reflexivity.
  - exact Hscan.
  - split; [exact Hreport | exact Hlength].
Defined.

Lemma ScanImages_fails_for_three_reasons_only_witness :
  ∃ e',
    ScanImages ContainerImage report map_to_list
      (scanner 2 "" (Some "no network")) [] start
    = Some ((None, Some "failed to download trivy db: no network"), e')
    ∧ calls e'
      = [GetContainersInNamespacesCall ""; DownloadDatabaseCall "image"].
Proof.
  eexists. split; [by vm_compute|].
  destruct (ScanImages_fails_for_three_reasons_only ContainerImage report
              map_to_list (scanner 2 "" (Some "no network")) [] start None
              "failed to download trivy db: no network" _ eq_refl)
    as [(Hlist & _)
       |[(_ & cause & _ & _ & _ & He')|(_ & results & e1 & Hscan & _)]].
  - discriminate Hlist.
  - reflexivity.
  - discriminate Hscan.
Defined.

Lemma ScanImages_without_containers_witness :
  ScanImages ContainerImage report map_to_list idle [] start
  = Some ((Some [], None),
          {| world := [];
             calls := [GetContainersInNamespacesCall "";
                       DownloadDatabaseCall "image";
                       GenerateVulnerabilityReportCall
                         {| AreaLabelName := "area"; TeamLabelName := "team" |}
                         []] |}).
Proof.
  apply (ScanImages_without_containers ContainerImage report map_to_list idle
           start [] []); reflexivity.
Defined.

Lemma joined_rule_strings_apply_in_turn_witness :
  stringReplacement "quay.io/team/app:1"
    ("quay.io|mirror.local" +:+ "," +:+ "team/|")
  = stringReplacement "mirror.local/team/app:1" "team/|".
Proof.
  apply (joined_rule_strings_apply_in_turn "quay.io/team/app:1"
           "quay.io|mirror.local" "team/|"); discriminate.
Defined.

Lemma score_ranks_by_severity_first_witness :
  (SeverityScore
     (buildVulnerabilitySummary (scanned (replicate 99 "HIGH" ++ ["LOW"])))
   < SeverityScore (buildVulnerabilitySummary (scanned ["CRITICAL"])))%Z.
Proof.
  apply (score_ranks_by_severity_first
           (scanned (replicate 99 "HIGH" ++ ["LOW"])) (scanned ["CRITICAL"])).
  - by vm_compute.
  - by vm_compute.
  - left. by vm_compute.
Defined.

End Examples.
